(** * Star-Graph-Connected-Components (SGCC) of
      tools/distributed_deduplication/dedup_utils.py

    A shallow embedding of [large_star_map], [large_star_reduce],
    [small_star_map], [small_star_reduce] and the driver [find_components],
    together with the part of the RDD interface the driver is written in.

    NodeIDs are Python integers, hence [Z].  An RDD is a multiset whose
    iteration order the engine does not fix; it is embedded as a list, and
    every statement about a whole RDD is made up to membership. *)

From Stdlib Require Import ZArith List Bool Lia Permutation.
From Stdlib Require String.
Import ListNotations.
Local Open Scope Z_scope.

(** ** The RDD operations used by [find_components] *)

Module RDD.

Definition t (A : Type) : Type := list A.

Definition map {A B : Type} (f : A -> B) (r : t A) : t B := List.map f r.

Definition flatMap {A B : Type} (f : A -> list B) (r : t A) : t B :=
  List.flat_map f r.

Definition union {A : Type} (r s : t A) : t A := r ++ s.

Definition cache {A : Type} (r : t A) : t A := r.

Definition collect {A : Type} (r : t A) : list A := r.

Section WithEq.

Context {A : Type} (eq_dec : forall x y : A, {x = y} + {x <> y}).

Definition mem (x : A) (r : t A) : bool :=
  if in_dec eq_dec x r then true else false.

Definition distinct (r : t A) : t A := nodup eq_dec r.

(** [r.subtract(s)]: each value of [r] that is not contained in [s]. *)
Definition subtract (r s : t A) : t A :=
  filter (fun x => negb (mem x s)) r.

End WithEq.

(** [groupByKey]: one pair per distinct key, holding all the values stored
    under that key. *)
Definition groupByKey (r : t (Z * Z)) : t (Z * list Z) :=
  List.map
    (fun k => (k, List.map snd (filter (fun p => fst p =? k) r)))
    (nodup Z.eq_dec (List.map fst r)).

End RDD.

Definition NodeID : Type := Z.
Definition Edge : Type := (NodeID * NodeID)%type.

Definition edge_eq_dec (e f : Edge) : {e = f} + {e <> f}.
Proof. decide equality; apply Z.eq_dec. Defined.

(** Python's [min] on the non-empty list [x :: l]. *)
Definition py_min (x : Z) (l : list Z) : Z := fold_left Z.min l x.

(** ** The four map and reduce functions *)

Definition large_star_map (edge : Edge) : list Edge :=
  [(fst edge, snd edge); (snd edge, fst edge)].

Definition large_star_reduce (group : NodeID * list NodeID) : list Edge :=
  let '(x, neighbors) := group in
  let nodes := x :: neighbors in
  let minimum := py_min x neighbors in
  List.map (fun n => (n, minimum)) (filter (fun n => n >? x) nodes).

Definition small_star_map (edge : Edge) : Edge :=
  let '(x, y) := edge in
  if y <=? x then (x, y) else (y, x).

Definition small_star_reduce (group : NodeID * list NodeID) : list Edge :=
  let '(x, neighbors) := group in
  let nodes := x :: neighbors in
  let minimum := py_min x neighbors in
  List.map (fun n => (n, minimum))
           (filter (fun n => negb (n =? minimum)) nodes).

(** ** The two phases and the driver *)

Definition large_star (a : RDD.t Edge) : RDD.t Edge :=
  RDD.cache
    (RDD.distinct edge_eq_dec
       (RDD.flatMap large_star_reduce
          (RDD.groupByKey (RDD.flatMap large_star_map a)))).

Definition small_star (b : RDD.t Edge) : RDD.t Edge :=
  RDD.cache
    (RDD.distinct edge_eq_dec
       (RDD.flatMap small_star_reduce
          (RDD.groupByKey (RDD.map small_star_map b)))).

Definition changes (a b : RDD.t Edge) : list Edge :=
  RDD.collect
    (RDD.union (RDD.subtract edge_eq_dec a b) (RDD.subtract edge_eq_dec b a)).

(** One turn of the body of [while True]: the new [a], and whether the
    loop breaks. *)
Definition iteration (a : RDD.t Edge) : RDD.t Edge * bool :=
  let b := large_star a in
  let a' := small_star b in
  (a', (length (changes a' b) =? 0)%nat).

(** The loop, with the number of turns it may take as fuel; [None] stands
    for a loop that has not left after [fuel] turns. *)
Fixpoint find_components_loop (fuel : nat) (a : RDD.t Edge)
  : option (RDD.t Edge) :=
  match fuel with
  | O => None
  | S fuel' =>
      let '(a', stop) := iteration a in
      if stop then Some a' else find_components_loop fuel' a'
  end.

Definition find_components (fuel : nat) (edges : RDD.t Edge)
  : option (list Edge) :=
  option_map RDD.collect (find_components_loop fuel edges).

(** The number of turns the loop takes before it breaks. *)
Fixpoint iterations (fuel : nat) (a : RDD.t Edge) : option nat :=
  match fuel with
  | O => None
  | S fuel' =>
      let '(a', stop) := iteration a in
      if stop then Some 1%nat else option_map S (iterations fuel' a')
  end.

(** ** Adjacency, reachability and component minima of an edge list *)

Definition adj (g : list Edge) (u v : NodeID) : Prop :=
  In (u, v) g \/ In (v, u) g.

Inductive reach (g : list Edge) : NodeID -> NodeID -> Prop :=
| reach_refl : forall u, reach g u u
| reach_step : forall u v w, reach g u v -> adj g v w -> reach g u w.

(** [m] is the least NodeID of the component of [n] in [g]. *)
Definition component_min (g : list Edge) (n m : NodeID) : Prop :=
  reach g n m /\ forall v, reach g n v -> m <= v.

(** [n] occurs in some edge of [g]. *)
Definition mentioned (g : list Edge) (n : NodeID) : Prop :=
  exists v, adj g n v.

(** Two RDDs hold the same edges. *)
Definition same_edges (a b : list Edge) : Prop :=
  forall e, In e a <-> In e b.

(** Every edge points from the larger NodeID to the smaller one. *)
Definition oriented (g : list Edge) : Prop :=
  forall n m, In (n, m) g -> m < n.

(** The least element of a set of NodeIDs. *)
Definition least (P : NodeID -> Prop) (m : NodeID) : Prop :=
  P m /\ forall v, P v -> m <= v.

(** The neighbourhood a reduce sees for the key [x], [x] included:
    all neighbours for the large star, the smaller ones for the small star. *)
Definition large_nbhd (g : list Edge) (x v : NodeID) : Prop :=
  v = x \/ adj g x v.

Definition small_nbhd (g : list Edge) (x v : NodeID) : Prop :=
  v = x \/ (adj g x v /\ v <= x).

(** Two edge lists describe the same undirected simple graph: they agree
    on adjacency between distinct nodes. *)
Definition same_graph (a b : list Edge) : Prop :=
  forall u v, u <> v -> (adj a u v <-> adj b u v).

(** The outcomes of two runs agree: both still running, or both returned
    the same edges, each once. *)
Definition same_outcome (r s : option (list Edge)) : Prop :=
  match r, s with
  | Some x, Some y => Permutation x y
  | None, None => True
  | _, _ => False
  end.

(** ** A potential for the driver loop

    The minimum each reduce computes for a key, as a function of the whole
    input, and the edge each phase makes of one input edge that already
    points downward. *)

Definition large_min (a : list Edge) (x : NodeID) : NodeID :=
  py_min x
    (List.map snd (filter (fun p => fst p =? x) (RDD.flatMap large_star_map a))).

Definition large_image (a : list Edge) (e : Edge) : Edge :=
  (fst e, large_min a (snd e)).

Definition small_min (b : list Edge) (x : NodeID) : NodeID :=
  py_min x
    (List.map snd (filter (fun p => fst p =? x) (RDD.map small_star_map b))).

Definition small_image (b : list Edge) (e : Edge) : Edge :=
  let m := small_min b (fst e) in
  if snd e =? m then e else (snd e, m).

(** No NodeID of [g] is below [L]. *)
Definition bounded_below (L : Z) (g : list Edge) : Prop :=
  forall n m, In (n, m) g -> L <= n /\ L <= m.

Definition lower_bound (g : list Edge) : Z :=
  fold_right (fun e acc => Z.min (Z.min (fst e) (snd e)) acc) 0 g.

Definition weight (L : Z) (e : Edge) : nat :=
  S (Z.to_nat (fst e + snd e - 2 * L)).

Definition potential (L : Z) (g : list Edge) : nat :=
  list_sum (List.map (weight L) g).

(** [u] reaches [w] by following edges of [g] from left to right. *)
Inductive descends (g : list Edge) : NodeID -> NodeID -> Prop :=
| descends_refl : forall u, descends g u u
| descends_step : forall u v w, In (u, v) g -> descends g v w -> descends g u w.

(** No node has two edges leaving it. *)
Definition functional (g : list Edge) : Prop :=
  forall n m m', In (n, m) g -> In (n, m') g -> m = m'.

(** A number of turns within which the loop breaks on [edges]. *)
Definition turns_bound (edges : list Edge) : nat :=
  S (potential (lower_bound edges) (large_star edges)).


(** ** The mapping of a result, and the reference it is compared with

    The mapping a result induces: a node without a pair is its own
    representative. *)
Definition parent_of (p : list Edge) (x : NodeID) : NodeID :=
  match find (fun e => fst e =? x) p with
  | Some e => snd e
  | None => x
  end.

Definition representative (r : list Edge) (n : NodeID) : NodeID :=
  parent_of r n.

(** The reference of the "correctness vs. reference" property of the
    specification: a simple sequential union-find over a parent table, in
    which the smaller of two roots becomes the root of their union. *)
Fixpoint uf_find (fuel : nat) (p : list Edge) (x : NodeID) : NodeID :=
  match fuel with
  | O => x
  | S fuel' =>
      let y := parent_of p x in
      if y =? x then x else uf_find fuel' p y
  end.

Definition uf_union (p : list Edge) (e : Edge) : list Edge :=
  let ru := uf_find (S (length p)) p (fst e) in
  let rv := uf_find (S (length p)) p (snd e) in
  if ru =? rv then p
  else if ru <? rv then (rv, ru) :: p else (ru, rv) :: p.

Definition union_find_reference (edges : list Edge) (n : NodeID) : NodeID :=
  let p := fold_left uf_union edges [] in
  uf_find (S (length p)) p n.

(** ** The inputs of the scenarios *)

Definition chain4 : list Edge := [(1, 2); (2, 3); (3, 4)].

Definition scenario_A : list Edge := [(1, 2); (2, 3); (4, 5)].

Definition fork3 : list Edge := [(3, 1); (3, 2)].

(** ** [init_spark]

    The configuration [init_spark] builds and hands to the session builder.
    A [SparkConf] is a table from keys to values; [set] overwrites.  The
    table [SparkConf()] starts from is whatever the environment provides,
    hence a parameter.  An argument is [None] or a Python [str]. *)

Module Spark.

Import String.
Local Open Scope string_scope.

Definition SparkConf : Type := list (string * string).

Definition set (conf : SparkConf) (key value : string) : SparkConf :=
  (key, value) :: filter (fun p => negb (String.eqb (fst p) key)) conf.

Definition get (conf : SparkConf) (key : string) : option string :=
  option_map snd (find (fun p => String.eqb (fst p) key) conf).

(** [if not x: x = d], for [x] that is [None] or a [str]. *)
Definition defaulted (x : option string) (d : string) : string :=
  match x with
  | Some s => if String.eqb s EmptyString then d else s
  | None => d
  end.

Definition init_spark (conf0 : SparkConf)
  (master_url spark_executor_memory spark_driver_memory
     spark_executor_memoryOverhead : option string) : SparkConf :=
  let spark_executor_memory := defaulted spark_executor_memory "64g" in
  let spark_driver_memory := defaulted spark_driver_memory "64g" in
  let spark_executor_memoryOverhead :=
    defaulted spark_executor_memoryOverhead "20000" in
  let master_url := defaulted master_url "local[*]" in
  let conf := conf0 in
  let conf := set conf "spark.app.name" "MinHashLSH" in
  let conf := set conf "spark.debug.maxToStringFields" "100" in
  let conf := set conf "spark.master" master_url in
  let conf := set conf "spark.executor.memory" spark_executor_memory in
  let conf := set conf "spark.driver.memory" spark_driver_memory in
  let conf := set conf "spark.sql.execution.arrow.pyspark.enabled" "true" in
  let conf :=
    set conf "spark.executor.memoryOverhead" spark_executor_memoryOverhead in
  conf.

(** The keys [init_spark] sets. *)
Definition init_spark_keys : list string :=
  [ "spark.app.name"; "spark.debug.maxToStringFields"; "spark.master";
    "spark.executor.memory"; "spark.driver.memory";
    "spark.sql.execution.arrow.pyspark.enabled";
    "spark.executor.memoryOverhead" ].

End Spark.

(** * Properties *)

(** ** Python's [min] *)

Lemma py_min_le_acc (l : list Z) (x : Z) : py_min x l <= x.
Proof.
  unfold py_min. revert x.
  induction l as [|y l IH]; intros x; simpl; [lia|].
  specialize (IH (Z.min x y)). lia.
Qed.

Lemma py_min_le_in (l : list Z) (x n : Z) : In n l -> py_min x l <= n.
Proof.
  unfold py_min. revert x.
  induction l as [|y l IH]; intros x Hin; simpl in *; [contradiction|].
  destruct Hin as [->|Hin].
  - pose proof (py_min_le_acc l (Z.min x n)) as H. unfold py_min in H. lia.
  - now apply IH.
Qed.

Lemma py_min_in (l : list Z) (x : Z) : py_min x l = x \/ In (py_min x l) l.
Proof.
  unfold py_min. revert x.
  induction l as [|y l IH]; intros x; simpl; [now left|].
  destruct (IH (Z.min x y)) as [H|H].
  - rewrite H. destruct (Z.min_spec x y) as [[_ ->]|[_ ->]]; auto.
  - auto.
Qed.

Lemma py_min_least (l : list Z) (x : Z) :
  least (fun v => v = x \/ In v l) (py_min x l).
Proof.
  split.
  - destruct (py_min_in l x); auto.
  - intros v [->|Hv]; [apply py_min_le_acc | now apply py_min_le_in].
Qed.

Lemma least_unique (P : NodeID -> Prop) (m m' : NodeID) :
  least P m -> least P m' -> m = m'.
Proof.
  intros [Hm Hlm] [Hm' Hlm'].
  specialize (Hlm _ Hm'). specialize (Hlm' _ Hm). lia.
Qed.

Lemma least_ext (P Q : NodeID -> Prop) (m : NodeID) :
  (forall v, P v <-> Q v) -> least P m -> least Q m.
Proof.
  intros HPQ [Hm Hl]. split; [now apply HPQ|].
  intros v Hv. apply Hl. now apply HPQ.
Qed.

(** ** [groupByKey] *)

Lemma groupByKey_values (r : list Edge) (k v : Z) :
  In v (List.map snd (filter (fun p => fst p =? k) r)) <-> In (k, v) r.
Proof.
  rewrite in_map_iff. split.
  - intros [[k' v'] [Hv Hin]]. simpl in Hv. subst v'.
    apply filter_In in Hin. destruct Hin as [Hin Hk]. simpl in Hk.
    apply Z.eqb_eq in Hk. now subst k'.
  - intros Hin. exists (k, v). split; [reflexivity|].
    apply filter_In. split; [assumption|]. simpl. apply Z.eqb_refl.
Qed.

Lemma groupByKey_In (r : list Edge) (k : Z) (vs : list Z) :
  In (k, vs) (RDD.groupByKey r) <->
  (exists v, In (k, v) r) /\
  vs = List.map snd (filter (fun p => fst p =? k) r).
Proof.
  unfold RDD.groupByKey. rewrite in_map_iff. split.
  - intros [k' [Heq Hk]]. inversion Heq; subst k' vs; clear Heq.
    apply nodup_In, in_map_iff in Hk.
    destruct Hk as [[k' v] [Hfst Hin]]. simpl in Hfst. subst k'.
    split; [now exists v | reflexivity].
  - intros [[v Hin] ->]. exists k. split; [reflexivity|].
    apply nodup_In, in_map_iff. now exists (k, v).
Qed.

Lemma groupByKey_group (r : list Edge) (k : Z) (vs : list Z) :
  In (k, vs) (RDD.groupByKey r) ->
  (exists v, In (k, v) r) /\ forall v, In v vs <-> In (k, v) r.
Proof.
  intros H. apply groupByKey_In in H. destruct H as [Hex ->].
  split; [assumption|]. intros v. apply groupByKey_values.
Qed.

Lemma groupByKey_exists (r : list Edge) (k v : Z) :
  In (k, v) r -> exists vs, In (k, vs) (RDD.groupByKey r).
Proof.
  intros Hin. eexists. apply groupByKey_In. split; [now exists v | reflexivity].
Qed.

Lemma groupByKey_keys_NoDup (r : list Edge) :
  NoDup (List.map fst (RDD.groupByKey r)).
Proof.
  unfold RDD.groupByKey. rewrite map_map. simpl. rewrite map_id.
  apply NoDup_nodup.
Qed.

(** ** What the map and reduce functions emit *)

Lemma large_star_map_In (a : list Edge) (u v : NodeID) :
  In (u, v) (RDD.flatMap large_star_map a) <-> adj a u v.
Proof.
  unfold RDD.flatMap, adj. rewrite in_flat_map. split.
  - intros [[p q] [Hin Hm]]. simpl in Hm.
    destruct Hm as [H|[H|[]]]; inversion H; subst; auto.
  - intros [H|H].
    + exists (u, v). simpl. auto.
    + exists (v, u). simpl. auto.
Qed.

Lemma small_star_map_In (b : list Edge) (x y : NodeID) :
  In (x, y) (RDD.map small_star_map b) <-> adj b x y /\ y <= x.
Proof.
  unfold RDD.map, adj. rewrite in_map_iff. split.
  - intros [[p q] [Hm Hin]]. unfold small_star_map in Hm.
    destruct (Z.leb_spec q p); inversion Hm; subst; split; auto; lia.
  - intros [[H|H] Hle].
    + exists (x, y). split; [|assumption]. unfold small_star_map.
      destruct (Z.leb_spec y x); [reflexivity | lia].
    + destruct (Z.eq_dec x y) as [->|Hne].
      * exists (y, y). split; [|assumption]. unfold small_star_map.
        now rewrite Z.leb_refl.
      * exists (y, x). split; [|assumption]. unfold small_star_map.
        destruct (Z.leb_spec x y); [lia | reflexivity].
Qed.

Lemma large_star_reduce_In (x : NodeID) (vs : list NodeID) (n m : NodeID) :
  In (n, m) (large_star_reduce (x, vs)) <->
  In n vs /\ x < n /\ m = py_min x vs.
Proof.
  unfold large_star_reduce. rewrite in_map_iff. split.
  - intros [n' [Heq Hin]]. inversion Heq; subst n' m; clear Heq.
    apply filter_In in Hin. destruct Hin as [Hin Hgt].
    apply Z.gtb_lt in Hgt. destruct Hin as [->|Hin]; [lia|]. auto.
  - intros (Hin & Hlt & ->). exists n. split; [reflexivity|].
    apply filter_In. split; [now right|]. now apply Z.gtb_lt.
Qed.

Lemma small_star_reduce_In (x : NodeID) (vs : list NodeID) (n m : NodeID) :
  In (n, m) (small_star_reduce (x, vs)) <->
  (n = x \/ In n vs) /\ n <> m /\ m = py_min x vs.
Proof.
  unfold small_star_reduce. rewrite in_map_iff. split.
  - intros [n' [Heq Hin]]. inversion Heq; subst n' m; clear Heq.
    apply filter_In in Hin. destruct Hin as [Hin Hne].
    apply negb_true_iff, Z.eqb_neq in Hne.
    split; [|auto]. destruct Hin as [->|Hin]; auto.
  - intros (Hin & Hne & ->). exists n. split; [reflexivity|].
    apply filter_In. split.
    + destruct Hin as [->|Hin]; [now left | now right].
    + now apply negb_true_iff, Z.eqb_neq.
Qed.

(** ** The phases, as sets of edges *)

Lemma large_star_In (a : list Edge) (n m : NodeID) :
  In (n, m) (large_star a) <->
  exists x, adj a x n /\ x < n /\ least (large_nbhd a x) m.
Proof.
  unfold large_star, RDD.cache, RDD.distinct.
  rewrite nodup_In. unfold RDD.flatMap at 1. rewrite in_flat_map. split.
  - intros [[x vs] [Hg Hr]].
    apply groupByKey_group in Hg. destruct Hg as [_ Hvs].
    apply large_star_reduce_In in Hr. destruct Hr as (Hin & Hlt & ->).
    exists x. split; [|split; [assumption|]].
    + now apply large_star_map_In, Hvs.
    + apply (least_ext (fun v => v = x \/ In v vs)); [|apply py_min_least].
      intros v. unfold large_nbhd. rewrite Hvs, large_star_map_In. tauto.
  - intros [x (Hadj & Hlt & Hleast)].
    apply large_star_map_In in Hadj.
    destruct (groupByKey_exists _ _ _ Hadj) as [vs Hg].
    exists (x, vs). split; [assumption|].
    apply groupByKey_group in Hg. destruct Hg as [_ Hvs].
    apply large_star_reduce_In. split; [now apply Hvs|]. split; [assumption|].
    apply (least_unique (large_nbhd a x)); [assumption|].
    apply (least_ext (fun v => v = x \/ In v vs)); [|apply py_min_least].
    intros v. unfold large_nbhd. rewrite Hvs, large_star_map_In. tauto.
Qed.

Lemma small_star_In (b : list Edge) (n m : NodeID) :
  In (n, m) (small_star b) <->
  exists x, (exists y, adj b x y /\ y <= x) /\
            small_nbhd b x n /\ n <> m /\ least (small_nbhd b x) m.
Proof.
  unfold small_star, RDD.cache, RDD.distinct.
  rewrite nodup_In. unfold RDD.flatMap. rewrite in_flat_map. split.
  - intros [[x vs] [Hg Hr]].
    apply groupByKey_group in Hg. destruct Hg as [[y Hy] Hvs].
    apply small_star_reduce_In in Hr. destruct Hr as (Hin & Hne & ->).
    exists x. split; [exists y; now apply small_star_map_In|].
    split; [|split; [assumption|]].
    + unfold small_nbhd. rewrite <- small_star_map_In, <- Hvs. assumption.
    + apply (least_ext (fun v => v = x \/ In v vs)); [|apply py_min_least].
      intros v. unfold small_nbhd. rewrite Hvs, small_star_map_In. tauto.
  - intros [x ([y Hy] & Hn & Hne & Hleast)].
    apply small_star_map_In in Hy.
    destruct (groupByKey_exists _ _ _ Hy) as [vs Hg].
    exists (x, vs). split; [assumption|].
    apply groupByKey_group in Hg. destruct Hg as [_ Hvs].
    apply small_star_reduce_In. split; [|split; [assumption|]].
    + unfold small_nbhd in Hn. rewrite <- small_star_map_In, <- Hvs in Hn.
      assumption.
    + apply (least_unique (small_nbhd b x)); [assumption|].
      apply (least_ext (fun v => v = x \/ In v vs)); [|apply py_min_least].
      intros v. unfold small_nbhd. rewrite Hvs, small_star_map_In. tauto.
Qed.

Lemma large_star_NoDup (a : list Edge) : NoDup (large_star a).
Proof. apply NoDup_nodup. Qed.

Lemma small_star_NoDup (b : list Edge) : NoDup (small_star b).
Proof. apply NoDup_nodup. Qed.

Lemma large_star_oriented (a : list Edge) : oriented (large_star a).
Proof.
  intros n m H. apply large_star_In in H.
  destruct H as [x (_ & Hlt & [_ Hl])].
  specialize (Hl x (or_introl eq_refl)). lia.
Qed.

Lemma small_star_oriented (b : list Edge) : oriented (small_star b).
Proof.
  intros n m H. apply small_star_In in H.
  destruct H as [x (_ & Hn & Hne & [_ Hl])].
  specialize (Hl n Hn). lia.
Qed.

(** ** Reachability *)

Lemma adj_sym (g : list Edge) (u v : NodeID) : adj g u v -> adj g v u.
Proof. unfold adj. tauto. Qed.

Lemma reach_adj (g : list Edge) (u v : NodeID) : adj g u v -> reach g u v.
Proof. intros H. eapply reach_step; [apply reach_refl | exact H]. Qed.

Lemma reach_trans (g : list Edge) (u v w : NodeID) :
  reach g u v -> reach g v w -> reach g u w.
Proof.
  intros Huv Hvw. induction Hvw as [|v w' w _ IH Hadj]; [assumption|].
  eapply reach_step; [now apply IH | exact Hadj].
Qed.

Lemma reach_sym (g : list Edge) (u v : NodeID) : reach g u v -> reach g v u.
Proof.
  intros H. induction H as [|u v w _ IH Hadj]; [apply reach_refl|].
  eapply reach_trans; [apply reach_adj, adj_sym, Hadj | exact IH].
Qed.

(** Reachability is monotone in the edges, up to paths. *)
Lemma reach_mono (g h : list Edge) :
  (forall u v, adj g u v -> reach h u v) ->
  forall u v, reach g u v -> reach h u v.
Proof.
  intros Hadj u v H. induction H as [|u v w _ IH Hvw]; [apply reach_refl|].
  eapply reach_trans; [exact IH | now apply Hadj].
Qed.

Lemma in_reach (g : list Edge) (u v : NodeID) : In (u, v) g -> reach g u v.
Proof. intros H. apply reach_adj. now left. Qed.

Lemma adj_of_in (g h : list Edge) :
  (forall n m, In (n, m) g -> reach h n m) ->
  forall u v, adj g u v -> reach h u v.
Proof.
  intros H u v [Huv|Hvu]; [now apply H | now apply reach_sym, H].
Qed.

Lemma least_large_reach (a : list Edge) (x m : NodeID) :
  least (large_nbhd a x) m -> reach a x m.
Proof.
  intros [[->|Hadj] _]; [apply reach_refl | now apply reach_adj].
Qed.

Lemma small_nbhd_reach (b : list Edge) (x v : NodeID) :
  small_nbhd b x v -> reach b x v.
Proof.
  intros [->|[Hadj _]]; [apply reach_refl | now apply reach_adj].
Qed.

(** Both phases only emit edges between nodes that were connected. *)
Lemma large_star_sound (a : list Edge) (n m : NodeID) :
  In (n, m) (large_star a) -> reach a n m.
Proof.
  intros H. apply large_star_In in H. destruct H as [x (Hadj & _ & Hl)].
  eapply reach_trans; [apply reach_adj, adj_sym, Hadj|].
  now apply least_large_reach.
Qed.

Lemma small_star_sound (b : list Edge) (n m : NodeID) :
  In (n, m) (small_star b) -> reach b n m.
Proof.
  intros H. apply small_star_In in H.
  destruct H as [x (_ & Hn & _ & [Hm _])].
  apply (reach_trans _ _ x).
  - now apply reach_sym, small_nbhd_reach.
  - now apply small_nbhd_reach.
Qed.

Lemma large_star_reach (a : list Edge) (u v : NodeID) :
  reach (large_star a) u v -> reach a u v.
Proof. apply reach_mono, adj_of_in, large_star_sound. Qed.

Lemma small_star_reach (b : list Edge) (u v : NodeID) :
  reach (small_star b) u v -> reach b u v.
Proof. apply reach_mono, adj_of_in, small_star_sound. Qed.

(** ** The driver loop *)

Lemma changes_nil (a b : list Edge) :
  (length (changes a b) =? 0)%nat = true <-> same_edges a b.
Proof.
  rewrite Nat.eqb_eq, length_zero_iff_nil.
  unfold changes, RDD.collect, RDD.union, RDD.subtract, RDD.mem, same_edges.
  split.
  - intros H. apply app_eq_nil in H. destruct H as [Hab Hba].
    intros e. split; intros Hin.
    + destruct (in_dec edge_eq_dec e b) as [Hb|Hb]; [assumption|].
      assert (Hf : In e (filter
        (fun x => negb (if in_dec edge_eq_dec x b then true else false)) a)).
      { apply filter_In. split; [assumption|].
        destruct (in_dec edge_eq_dec e b); [contradiction | reflexivity]. }
      rewrite Hab in Hf. contradiction.
    + destruct (in_dec edge_eq_dec e a) as [Ha|Ha]; [assumption|].
      assert (Hf : In e (filter
        (fun x => negb (if in_dec edge_eq_dec x a then true else false)) b)).
      { apply filter_In. split; [assumption|].
        destruct (in_dec edge_eq_dec e a); [contradiction | reflexivity]. }
      rewrite Hba in Hf. contradiction.
  - intros H.
    assert (Hnil : forall (p q : list Edge),
      (forall e, In e p -> In e q) ->
      filter (fun x => negb (if in_dec edge_eq_dec x q then true else false)) p
      = []).
    { intros p q Hpq.
      destruct (filter _ p) as [|e l] eqn:Hf; [reflexivity|].
      assert (Hin : In e (e :: l)) by now left.
      rewrite <- Hf in Hin. apply filter_In in Hin. destruct Hin as [Hp Hq].
      destruct (in_dec edge_eq_dec e q) as [|Hn]; [discriminate|].
      exfalso. now apply Hn, Hpq. }
    rewrite (Hnil a b), (Hnil b a); [reflexivity | |]; intros e; apply H.
Qed.

Lemma find_components_loop_S (fuel : nat) (a : list Edge) :
  find_components_loop (S fuel) a =
  if (length (changes (small_star (large_star a)) (large_star a)) =? 0)%nat
  then Some (small_star (large_star a))
  else find_components_loop fuel (small_star (large_star a)).
Proof. reflexivity. Qed.

(** What the loop returns is the state of some turn at which the small star
    left the output of the large star unchanged; any property the body keeps
    holds of the state that turn started from. *)
Lemma find_components_loop_inv (P : list Edge -> Prop) :
  (forall a, P a -> P (small_star (large_star a))) ->
  forall fuel a r,
    P a -> find_components_loop fuel a = Some r ->
    exists a0, P a0 /\ r = small_star (large_star a0) /\
               same_edges r (large_star a0).
Proof.
  intros Hstep fuel. induction fuel as [|fuel IH]; intros a r HP Hr.
  - discriminate.
  - rewrite find_components_loop_S in Hr.
    destruct (length _ =? 0)%nat eqn:Hstop.
    + inversion Hr; subst r. exists a. split; [assumption|].
      split; [reflexivity|]. now apply changes_nil.
    + apply (IH _ _ (Hstep _ HP) Hr).
Qed.

Lemma find_components_Some (fuel : nat) (edges r : list Edge) :
  find_components fuel edges = Some r <->
  find_components_loop fuel edges = Some r.
Proof.
  unfold find_components, RDD.collect.
  destruct (find_components_loop fuel edges); simpl; tauto.
Qed.

Lemma find_components_small_star (fuel : nat) (edges r : list Edge) :
  find_components fuel edges = Some r ->
  exists a0, r = small_star (large_star a0) /\ same_edges r (large_star a0).
Proof.
  intros H. apply find_components_Some in H.
  destruct (find_components_loop_inv (fun _ => True) (fun _ _ => I)
              fuel edges r I H) as [a0 (_ & H1 & H2)].
  now exists a0.
Qed.

Lemma find_components_oriented (fuel : nat) (edges r : list Edge) :
  find_components fuel edges = Some r -> oriented r.
Proof.
  intros H. apply find_components_small_star in H.
  destruct H as [a0 [-> _]]. apply small_star_oriented.
Qed.

(** Every edge of the result joins two nodes connected in the input. *)
Lemma find_components_sound (fuel : nat) (edges r : list Edge) :
  find_components fuel edges = Some r ->
  forall u v, reach r u v -> reach edges u v.
Proof.
  intros H. apply find_components_Some in H.
  destruct (find_components_loop_inv
              (fun a => forall u v, reach a u v -> reach edges u v)) with
    (fuel := fuel) (a := edges) (r := r) as [a0 (Ha0 & -> & _)];
    [ | auto | assumption | ].
  - intros a Ha u v Huv. now apply Ha, large_star_reach, small_star_reach.
  - intros u v Huv. now apply Ha0, large_star_reach, small_star_reach.
Qed.

(** ** The phases only see the undirected simple graph *)

Lemma small_star_In_nbhd (b : list Edge) (n m : NodeID) :
  In (n, m) (small_star b) <->
  exists x, small_nbhd b x n /\ n <> m /\ least (small_nbhd b x) m.
Proof.
  rewrite small_star_In. split.
  - intros [x (_ & H)]. now exists x.
  - intros [x (Hn & Hne & Hl)]. exists x. split; [|auto].
    destruct Hn as [->|[Hadj Hle]]; [|now exists n].
    destruct Hl as [[->|[Hadj Hle]] _]; [contradiction | now exists m].
Qed.

Lemma same_graph_large_nbhd (a a' : list Edge) (x v : NodeID) :
  same_graph a a' -> (large_nbhd a x v <-> large_nbhd a' x v).
Proof.
  intros H. unfold large_nbhd.
  destruct (Z.eq_dec x v) as [->|Hne]; [tauto|].
  specialize (H x v Hne). tauto.
Qed.

Lemma same_graph_small_nbhd (a a' : list Edge) (x v : NodeID) :
  same_graph a a' -> (small_nbhd a x v <-> small_nbhd a' x v).
Proof.
  intros H. unfold small_nbhd.
  destruct (Z.eq_dec x v) as [->|Hne]; [tauto|].
  specialize (H x v Hne). tauto.
Qed.

Lemma same_graph_sym (a a' : list Edge) : same_graph a a' -> same_graph a' a.
Proof. intros H u v Hne. symmetry. now apply H. Qed.

Lemma same_edges_sym (a a' : list Edge) : same_edges a a' -> same_edges a' a.
Proof. intros H e. symmetry. apply H. Qed.

Lemma same_edges_trans (a b c : list Edge) :
  same_edges a b -> same_edges b c -> same_edges a c.
Proof. intros H1 H2 e. rewrite (H1 e). apply H2. Qed.

Lemma same_edges_graph (a a' : list Edge) : same_edges a a' -> same_graph a a'.
Proof. intros H u v _. unfold adj. rewrite (H (u, v)), (H (v, u)). tauto. Qed.

Lemma large_star_incl (a a' : list Edge) :
  same_graph a a' -> forall e, In e (large_star a) -> In e (large_star a').
Proof.
  intros H [n m] Hin. apply large_star_In in Hin. apply large_star_In.
  destruct Hin as [x (Hadj & Hlt & Hl)]. exists x.
  split; [apply H; [lia | assumption]|]. split; [assumption|].
  apply (least_ext (large_nbhd a x)); [|assumption].
  intros v. now apply same_graph_large_nbhd.
Qed.

Lemma small_star_incl (b b' : list Edge) :
  same_graph b b' -> forall e, In e (small_star b) -> In e (small_star b').
Proof.
  intros H [n m] Hin. apply small_star_In_nbhd in Hin.
  apply small_star_In_nbhd.
  destruct Hin as [x (Hn & Hne & Hl)]. exists x.
  split; [now apply (same_graph_small_nbhd b b')|]. split; [assumption|].
  apply (least_ext (small_nbhd b x)); [|assumption].
  intros v. now apply same_graph_small_nbhd.
Qed.

Lemma large_star_ext (a a' : list Edge) :
  same_graph a a' -> same_edges (large_star a) (large_star a').
Proof.
  intros H e. split; apply large_star_incl; [|apply same_graph_sym]; exact H.
Qed.

Lemma small_star_ext (b b' : list Edge) :
  same_graph b b' -> same_edges (small_star b) (small_star b').
Proof.
  intros H e. split; apply small_star_incl; [|apply same_graph_sym]; exact H.
Qed.

Lemma NoDup_same_edges_Permutation (g h : list Edge) :
  NoDup g -> NoDup h -> same_edges g h -> Permutation g h.
Proof. intros Hg Hh H. now apply NoDup_Permutation. Qed.

Lemma find_components_loop_ext (fuel : nat) :
  forall a a', same_graph a a' ->
    same_outcome (find_components_loop fuel a) (find_components_loop fuel a').
Proof.
  induction fuel as [|fuel IH]; intros a a' H; [exact I|].
  rewrite !find_components_loop_S.
  pose proof (large_star_ext _ _ H) as Hb.
  pose proof (small_star_ext _ _ (same_edges_graph _ _ Hb)) as Ha.
  destruct (length (changes (small_star (large_star a)) _) =? 0)%nat eqn:Hs;
    destruct (length (changes (small_star (large_star a')) _) =? 0)%nat
      eqn:Hs'.
  - simpl. apply NoDup_same_edges_Permutation;
      [apply small_star_NoDup | apply small_star_NoDup | exact Ha].
  - exfalso. apply changes_nil in Hs.
    apply Bool.not_true_iff_false in Hs'. apply Hs', changes_nil.
    eapply same_edges_trans; [apply same_edges_sym, Ha|].
    eapply same_edges_trans; [exact Hs | exact Hb].
  - exfalso. apply changes_nil in Hs'.
    apply Bool.not_true_iff_false in Hs. apply Hs, changes_nil.
    eapply same_edges_trans; [exact Ha|].
    eapply same_edges_trans; [exact Hs' | apply same_edges_sym, Hb].
  - apply IH, same_edges_graph, Ha.
Qed.

Lemma find_components_ext (fuel : nat) (a a' : list Edge) :
  same_graph a a' ->
  same_outcome (find_components fuel a) (find_components fuel a').
Proof.
  intros H. pose proof (find_components_loop_ext fuel a a' H) as Hl.
  unfold find_components, RDD.collect.
  destruct (find_components_loop fuel a), (find_components_loop fuel a');
    exact Hl.
Qed.

(** ** Each phase as the image of its input *)

Lemma large_min_least (a : list Edge) (x : NodeID) :
  least (large_nbhd a x) (large_min a x).
Proof.
  unfold large_min.
  eapply least_ext; [|apply py_min_least].
  intros v. unfold large_nbhd. simpl.
  rewrite groupByKey_values, large_star_map_In. tauto.
Qed.

Lemma small_min_least (b : list Edge) (x : NodeID) :
  least (small_nbhd b x) (small_min b x).
Proof.
  unfold small_min.
  eapply least_ext; [|apply py_min_least].
  intros v. unfold small_nbhd. simpl.
  rewrite groupByKey_values, small_star_map_In. tauto.
Qed.

Lemma oriented_down (b : list Edge) (x v : NodeID) :
  oriented b -> (adj b x v /\ v <= x <-> In (x, v) b).
Proof.
  intros Ho. split.
  - intros [[H|H] Hle]; [assumption|]. apply Ho in H. lia.
  - intros H. split; [now left|]. apply Ho in H. lia.
Qed.

Lemma oriented_up (a : list Edge) (x n : NodeID) :
  oriented a -> (adj a x n /\ x < n <-> In (n, x) a).
Proof.
  intros Ho. split.
  - intros [[H|H] Hlt]; [|assumption]. apply Ho in H. lia.
  - intros H. split; [now right|]. now apply Ho in H.
Qed.

Lemma large_star_image (a : list Edge) :
  oriented a -> same_edges (large_star a) (List.map (large_image a) a).
Proof.
  intros Ho [n m]. rewrite large_star_In, in_map_iff. split.
  - intros [x (Hadj & Hlt & Hl)]. exists (n, x). split.
    + unfold large_image. simpl. f_equal.
      apply (least_unique (large_nbhd a x)); [apply large_min_least | exact Hl].
    + now apply oriented_up.
  - intros [[n' x] [Heq Hin]]. unfold large_image in Heq. simpl in Heq.
    inversion Heq; subst n' m; clear Heq.
    apply (oriented_up a x n Ho) in Hin. destruct Hin as [Hadj Hlt].
    exists x. split; [assumption|]. split; [assumption|].
    apply large_min_least.
Qed.

Lemma small_star_image (b : list Edge) :
  oriented b -> same_edges (small_star b) (List.map (small_image b) b).
Proof.
  intros Ho [n m]. rewrite small_star_In_nbhd, in_map_iff. split.
  - intros [x (Hn & Hne & Hl)].
    assert (Hm : m = small_min b x)
      by (apply (least_unique (small_nbhd b x));
          [exact Hl | apply small_min_least]).
    destruct Hn as [->|Hn].
    + destruct Hl as [[->|Hx] _]; [contradiction|].
      apply (oriented_down b x m Ho) in Hx.
      exists (x, m). split; [|assumption].
      unfold small_image. simpl. rewrite <- Hm, Z.eqb_refl. reflexivity.
    + apply (oriented_down b x n Ho) in Hn.
      exists (x, n). split; [|assumption].
      unfold small_image. simpl. rewrite <- Hm.
      destruct (Z.eqb_spec n m); [contradiction | reflexivity].
  - intros [[x v] [Heq Hin]]. unfold small_image in Heq. simpl in Heq.
    pose proof (Ho _ _ Hin) as Hlt.
    pose proof (small_min_least b x) as Hl.
    assert (Hv : small_nbhd b x v)
      by (right; now apply (oriented_down b x v Ho)).
    exists x. destruct (Z.eqb_spec v (small_min b x)) as [Hvm|Hvm].
    + inversion Heq; subst n m; clear Heq.
      split; [now left|]. split; [lia|]. rewrite Hvm. exact Hl.
    + inversion Heq; subst n m; clear Heq. auto.
Qed.

(** ** The potential never grows, and the small star lowers it unless it
       changes nothing *)

Lemma potential_Permutation (L : Z) (g h : list Edge) :
  Permutation g h -> potential L g = potential L h.
Proof.
  unfold potential. intros H.
  induction H as [|e g h _ IH|e f g|g h k _ IH1 _ IH2]; simpl;
    [reflexivity | now rewrite IH | lia | now rewrite IH1].
Qed.

Lemma potential_same_edges (L : Z) (g h : list Edge) :
  NoDup g -> NoDup h -> same_edges g h -> potential L g = potential L h.
Proof.
  intros Hg Hh H. now apply potential_Permutation, NoDup_same_edges_Permutation.
Qed.

Lemma potential_cons (L : Z) (e : Edge) (g : list Edge) :
  potential L (e :: g) = (weight L e + potential L g)%nat.
Proof. reflexivity. Qed.

Lemma weight_pos (L : Z) (e : Edge) : (0 < weight L e)%nat.
Proof. unfold weight. lia. Qed.

Section Image.
Variables (L : Z) (f : Edge -> Edge).

Lemma potential_image_le (l : list Edge) :
  (forall e, In e l -> (weight L (f e) <= weight L e)%nat) ->
  (potential L (nodup edge_eq_dec (List.map f l)) <= potential L l)%nat.
Proof.
  induction l as [|e l IH]; intros Hw; [apply Nat.le_refl|].
  assert (IH' := IH (fun e' He' => Hw e' (or_intror He'))).
  assert (He := Hw e (or_introl eq_refl)).
  cbn [List.map nodup]. rewrite potential_cons.
  destruct (in_dec edge_eq_dec (f e) (List.map f l));
    [|rewrite potential_cons]; lia.
Qed.

Lemma potential_image_eq (l : list Edge) :
  (forall e, In e l -> (weight L (f e) <= weight L e)%nat) ->
  (forall e, In e l -> weight L (f e) = weight L e -> f e = e) ->
  potential L (nodup edge_eq_dec (List.map f l)) = potential L l ->
  forall e, In e l -> f e = e.
Proof.
  induction l as [|e l IH]; intros Hw Hfix Heq e' He'; [contradiction|].
  assert (Hle := potential_image_le l (fun e'' H => Hw e'' (or_intror H))).
  assert (He := Hw e (or_introl eq_refl)).
  pose proof (weight_pos L e) as Hpos.
  cbn [List.map nodup] in Heq. rewrite potential_cons in Heq.
  destruct (in_dec edge_eq_dec (f e) (List.map f l)).
  - exfalso. lia.
  - rewrite potential_cons in Heq. destruct He' as [<-|He'].
    + apply Hfix; [now left | lia].
    + apply IH; [ intros e'' H; apply Hw; now right
                | intros e'' H; apply Hfix; now right
                | lia | assumption ].
Qed.
End Image.

Lemma bounded_below_adj (L : Z) (g : list Edge) (u v : NodeID) :
  bounded_below L g -> adj g u v -> L <= u /\ L <= v.
Proof. intros Hb [H|H]; apply Hb in H; tauto. Qed.

Lemma lower_bound_bounded (g : list Edge) : bounded_below (lower_bound g) g.
Proof.
  induction g as [|[p q] g IH]; intros n m Hin; [contradiction|].
  simpl. destruct Hin as [Heq|Hin].
  - inversion Heq; subst. lia.
  - apply IH in Hin. lia.
Qed.

Lemma large_star_bounded (L : Z) (a : list Edge) :
  bounded_below L a -> bounded_below L (large_star a).
Proof.
  intros Hb n m H. apply large_star_In in H.
  destruct H as [x (Hadj & _ & [[->|Hm] _])].
  - apply (bounded_below_adj _ _ _ _ Hb) in Hadj. tauto.
  - apply (bounded_below_adj _ _ _ _ Hb) in Hadj, Hm. tauto.
Qed.

Lemma small_star_bounded (L : Z) (b : list Edge) :
  bounded_below L b -> bounded_below L (small_star b).
Proof.
  intros Hb n m H. apply small_star_In in H.
  destruct H as [x ([y [Hy _]] & Hn & _ & [Hm _])].
  apply (bounded_below_adj _ _ _ _ Hb) in Hy.
  split.
  - destruct Hn as [->|[Hn _]]; [tauto|].
    apply (bounded_below_adj _ _ _ _ Hb) in Hn. tauto.
  - destruct Hm as [->|[Hm _]]; [tauto|].
    apply (bounded_below_adj _ _ _ _ Hb) in Hm. tauto.
Qed.

Lemma large_image_weight (L : Z) (a : list Edge) (e : Edge) :
  (weight L (large_image a e) <= weight L e)%nat.
Proof.
  destruct e as [n x]. unfold weight, large_image. cbn [fst snd].
  destruct (large_min_least a x) as [_ Hl].
  specialize (Hl x (or_introl eq_refl)). lia.
Qed.

Lemma small_image_weight (L : Z) (b : list Edge) (e : Edge) :
  oriented b -> bounded_below L b -> In e b ->
  (weight L (small_image b e) <= weight L e)%nat /\
  (weight L (small_image b e) = weight L e -> small_image b e = e).
Proof.
  destruct e as [x v]. intros Ho Hb Hin. unfold small_image. simpl.
  destruct (Z.eqb_spec v (small_min b x)) as [Hv|Hv]; [auto|].
  pose proof (Ho _ _ Hin) as Hlt. pose proof (Hb _ _ Hin) as [Hx Hv'].
  destruct (small_min_least b x) as [Hm Hl].
  assert (Hle : small_min b x <= v)
    by (apply Hl; right; now apply (oriented_down b x v Ho)).
  assert (HL : L <= small_min b x).
  { destruct Hm as [Hm|[Hm _]]; [lia|].
    apply (bounded_below_adj _ _ _ _ Hb) in Hm. tauto. }
  unfold weight. cbn [fst snd]. split; [lia|]. intros Heq. exfalso. lia.
Qed.

Lemma large_star_potential (L : Z) (a : list Edge) :
  oriented a -> (potential L (large_star a) <= potential L a)%nat.
Proof.
  intros Ho.
  rewrite (potential_same_edges L (large_star a)
             (nodup edge_eq_dec (List.map (large_image a) a))).
  - apply potential_image_le. intros e _. apply large_image_weight.
  - apply large_star_NoDup.
  - apply NoDup_nodup.
  - intros e. rewrite nodup_In. now apply large_star_image.
Qed.

Lemma small_star_potential (L : Z) (b : list Edge) :
  oriented b -> bounded_below L b ->
  (potential L (small_star b) <= potential L b)%nat /\
  (potential L (small_star b) = potential L b -> same_edges (small_star b) b).
Proof.
  intros Ho Hb.
  rewrite (potential_same_edges L (small_star b)
             (nodup edge_eq_dec (List.map (small_image b) b)));
    [ | apply small_star_NoDup | apply NoDup_nodup
      | intros e; rewrite nodup_In; now apply small_star_image ].
  split.
  - apply potential_image_le. intros e He.
    now apply small_image_weight.
  - intros Heq.
    assert (Hfix : forall e, In e b -> small_image b e = e).
    { apply (potential_image_eq L); [| |exact Heq]; intros e He;
        now apply small_image_weight. }
    eapply same_edges_trans; [now apply small_star_image|].
    intros e. rewrite in_map_iff. split.
    + intros [e' [<- He']]. now rewrite Hfix.
    + intros He. exists e. split; [now apply Hfix | assumption].
Qed.

(** ** Termination of the loop *)

Lemma find_components_loop_terminates (L : Z) (k : nat) :
  forall a, bounded_below L a ->
    (potential L (large_star a) <= k)%nat ->
    exists r, find_components_loop (S k) a = Some r.
Proof.
  induction k as [|k IH]; intros a Hb Hk;
    rewrite find_components_loop_S;
    destruct (length _ =? 0)%nat eqn:Hstop; eauto;
    pose proof (large_star_bounded L a Hb) as Hbb;
    destruct (small_star_potential L (large_star a)
                (large_star_oriented a) Hbb) as [Hle Heq];
    assert (Hlt : (potential L (small_star (large_star a))
                   < potential L (large_star a))%nat)
      by (apply Nat.le_neq; split; [exact Hle|]; intros H;
          apply Heq, changes_nil in H; congruence).
  - lia.
  - apply IH; [now apply small_star_bounded|].
    pose proof (large_star_potential L (small_star (large_star a))
                  (small_star_oriented _)). lia.
Qed.

Lemma find_components_loop_more (fuel k : nat) :
  forall a r, find_components_loop fuel a = Some r ->
              find_components_loop (fuel + k) a = Some r.
Proof.
  induction fuel as [|fuel IH]; intros a r H; [discriminate|].
  change (S fuel + k)%nat with (S (fuel + k)).
  rewrite find_components_loop_S in *.
  destruct (length _ =? 0)%nat; [assumption | now apply IH].
Qed.

(** ** Both phases keep connected nodes connected *)

Lemma large_star_edge (a : list Edge) (x n : NodeID) :
  adj a x n -> x < n -> In (n, large_min a x) (large_star a).
Proof.
  intros Hadj Hlt. apply large_star_In. exists x.
  split; [assumption|]. split; [assumption | apply large_min_least].
Qed.

Lemma large_star_min_reach (L : Z) (a : list Edge) :
  bounded_below L a ->
  forall (k : nat) (v : NodeID),
    v - L <= Z.of_nat k -> reach (large_star a) v (large_min a v).
Proof.
  intros Hb k. induction k as [|k IH]; intros v Hk;
    destruct (large_min_least a v) as [[Hm|Hm] Hl];
    try (rewrite Hm; apply reach_refl);
    pose proof (Hl v (or_introl eq_refl)) as Hle;
    destruct (Z.eq_dec (large_min a v) v) as [Heq|Hne];
    try (rewrite Heq; apply reach_refl);
    pose proof (bounded_below_adj _ _ _ _ Hb Hm) as [_ HL].
  - lia.
  - apply (reach_trans _ _ (large_min a (large_min a v))).
    + apply in_reach, large_star_edge; [now apply adj_sym | lia].
    + apply reach_sym, IH. lia.
Qed.

Lemma large_star_complete (a : list Edge) (u v : NodeID) :
  reach a u v -> reach (large_star a) u v.
Proof.
  apply reach_mono. clear u v.
  assert (Hup : forall x n, adj a x n -> x < n -> reach (large_star a) x n).
  { intros x n Hadj Hlt.
    apply (reach_trans _ _ (large_min a x)).
    - apply (large_star_min_reach (lower_bound a) a (lower_bound_bounded a)
               (Z.to_nat (x - lower_bound a))). lia.
    - apply reach_sym, in_reach. now apply large_star_edge. }
  intros u v Hadj. destruct (Z.lt_total u v) as [Hlt|[->|Hgt]].
  - now apply Hup.
  - apply reach_refl.
  - apply reach_sym, Hup; [now apply adj_sym | assumption].
Qed.

Lemma small_star_edge_key (b : list Edge) (x n : NodeID) :
  adj b x n -> n < x -> In (x, small_min b x) (small_star b).
Proof.
  intros Hadj Hlt. apply small_star_In_nbhd. exists x.
  destruct (small_min_least b x) as [Hm Hl].
  assert (Hle : small_min b x <= n) by (apply Hl; right; split; [auto|lia]).
  split; [now left|]. split; [lia | now split].
Qed.

Lemma small_star_complete (b : list Edge) (u v : NodeID) :
  reach b u v -> reach (small_star b) u v.
Proof.
  apply reach_mono. clear u v.
  assert (Hdown : forall x n, adj b x n -> n < x -> reach (small_star b) x n).
  { intros x n Hadj Hlt.
    pose proof (small_star_edge_key b x n Hadj Hlt) as Hkey.
    destruct (Z.eq_dec n (small_min b x)) as [Heq|Hne].
    - rewrite Heq. now apply in_reach.
    - apply (reach_trans _ _ (small_min b x)); [now apply in_reach|].
      apply reach_sym, in_reach, small_star_In_nbhd. exists x.
      split; [right; split; [assumption | lia]|].
      split; [assumption | apply small_min_least]. }
  intros u v Hadj. destruct (Z.lt_total u v) as [Hlt|[->|Hgt]].
  - apply reach_sym, Hdown; [now apply adj_sym | assumption].
  - apply reach_refl.
  - now apply Hdown.
Qed.

Lemma find_components_complete (fuel : nat) (edges r : list Edge) :
  find_components fuel edges = Some r ->
  forall u v, reach edges u v -> reach r u v.
Proof.
  intros H. apply find_components_Some in H.
  destruct (find_components_loop_inv
              (fun a => forall u v, reach edges u v -> reach a u v)) with
    (fuel := fuel) (a := edges) (r := r) as [a0 (Ha0 & -> & _)];
    [ | auto | assumption | ].
  - intros a Ha u v Huv. now apply small_star_complete, large_star_complete, Ha.
  - intros u v Huv. now apply small_star_complete, large_star_complete, Ha0.
Qed.

(** ** A set the small star leaves unchanged gives every node one edge *)

Lemma exists_upper_bound (g : list Edge) :
  exists U, forall n m, In (n, m) g -> n <= U.
Proof.
  induction g as [|[p q] g [U HU]].
  - exists 0. intros n m [].
  - exists (Z.max p U). intros n m [Heq|Hin].
    + inversion Heq; subst. lia.
    + apply HU in Hin. lia.
Qed.

Lemma small_star_fixed_functional (b : list Edge) :
  same_edges (small_star b) b -> functional b.
Proof.
  intros Hfix.
  assert (Ho : oriented b).
  { intros n m Hin. apply (small_star_oriented b), Hfix, Hin. }
  destruct (exists_upper_bound b) as [U HU].
  assert (Hk : forall (k : nat) x, U - x < Z.of_nat k ->
                 forall y y', In (x, y) b -> In (x, y') b -> y = y').
  { induction k as [|k IH]; intros x Hx y y' Hy Hy'.
    - apply HU in Hy. lia.
    - destruct (Z.eq_dec y y') as [|Hne]; [assumption|]. exfalso.
      assert (Hw : exists w, In (x, w) b /\ w <> small_min b x).
      { destruct (Z.eq_dec y (small_min b x)) as [Heq|Hneq].
        - exists y'. split; [assumption | congruence].
        - exists y. split; assumption. }
      destruct Hw as [w [Hw Hwm]].
      pose proof (Ho _ _ Hw) as Hwx.
      apply Hfix, small_star_In_nbhd in Hw.
      destruct Hw as [x' (Hx' & _ & Hl)].
      destruct Hx' as [->|Hx'].
      + apply Hwm. apply (least_unique (small_nbhd b x'));
          [exact Hl | apply small_min_least].
      + apply (oriented_down b x' x Ho) in Hx'.
        pose proof (Ho _ _ Hx') as Hlt.
        destruct Hl as [[->|Hw'] _]; [lia|].
        apply (oriented_down b x' w Ho) in Hw'.
        assert (x = w) by (apply (IH x'); [lia | assumption | assumption]).
        lia. }
  intros n m m' Hm Hm'.
  apply (Hk (S (Z.to_nat (U - n))) n); [lia | assumption | assumption].
Qed.

Lemma find_components_functional (fuel : nat) (edges r : list Edge) :
  find_components fuel edges = Some r -> functional r.
Proof.
  intros H. apply find_components_small_star in H.
  destruct H as [a0 [Hr Hsame]].
  assert (Hb : functional (large_star a0)).
  { apply small_star_fixed_functional. now rewrite <- Hr. }
  intros n m m' Hm Hm'. apply Hsame in Hm, Hm'. exact (Hb _ _ _ Hm Hm').
Qed.

Lemma find_components_NoDup (fuel : nat) (edges r : list Edge) :
  find_components fuel edges = Some r -> NoDup r.
Proof.
  intros H. apply find_components_small_star in H.
  destruct H as [a0 [-> _]]. apply small_star_NoDup.
Qed.

(** ** A node without an outgoing edge is the least of its component *)

Lemma descends_le (g : list Edge) (u w : NodeID) :
  oriented g -> descends g u w -> w <= u.
Proof.
  intros Ho H. induction H as [|u v w Hin _ IH]; [lia|].
  apply Ho in Hin. lia.
Qed.

Lemma root_reach_descends (g : list Edge) (n : NodeID) :
  functional g -> (forall m, ~ In (n, m) g) ->
  forall v, reach g n v -> descends g v n.
Proof.
  intros Hf Hroot v H. induction H as [|u v w _ IH Hadj];
    [apply descends_refl|].
  specialize (IH Hroot). destruct Hadj as [Hvw|Hwv].
  - inversion IH as [|v0 v' w0 Hvv' Hdesc]; subst.
    + exfalso. exact (Hroot _ Hvw).
    + now rewrite (Hf _ _ _ Hvw Hvv').
  - eapply descends_step; eassumption.
Qed.

Lemma In_fst_dec (g : list Edge) (n : NodeID) :
  (exists m, In (n, m) g) \/ (forall m, ~ In (n, m) g).
Proof.
  destruct (in_dec Z.eq_dec n (List.map fst g)) as [Hin|Hout].
  - left. apply in_map_iff in Hin. destruct Hin as [[n' m] [Heq Hin]].
    simpl in Heq. subst n'. now exists m.
  - right. intros m Hin. apply Hout, in_map_iff. now exists (n, m).
Qed.

Lemma reach_neq_mentioned (g : list Edge) (u v : NodeID) :
  reach g u v -> u <> v -> mentioned g u.
Proof.
  intros H. induction H as [|u v w Huv IH Hadj]; intros Hne; [contradiction|].
  destruct (Z.eq_dec u v) as [->|Hne']; [now exists w | now apply IH].
Qed.

(** ** More on the loop: turns, fuel and bounds *)

Lemma find_components_more (fuel k : nat) (edges r : list Edge) :
  find_components fuel edges = Some r ->
  find_components (fuel + k) edges = Some r.
Proof.
  rewrite !find_components_Some. apply find_components_loop_more.
Qed.

Lemma find_components_bound (edges : list Edge) :
  exists r, find_components (turns_bound edges) edges = Some r.
Proof.
  destruct (find_components_loop_terminates (lower_bound edges)
              (potential (lower_bound edges) (large_star edges)) edges
              (lower_bound_bounded edges) (Nat.le_refl _)) as [r Hr].
  exists r. now apply find_components_Some.
Qed.

Lemma find_components_deterministic (f1 f2 : nat) (edges r1 r2 : list Edge) :
  find_components f1 edges = Some r1 ->
  find_components f2 edges = Some r2 -> r1 = r2.
Proof.
  intros H1 H2.
  apply (find_components_more f1 f2) in H1.
  apply (find_components_more f2 f1) in H2.
  rewrite Nat.add_comm in H2. congruence.
Qed.


Lemma reach_bounded (L : Z) (g : list Edge) (u v : NodeID) :
  bounded_below L g -> L <= u -> reach g u v -> L <= v.
Proof.
  intros Hb Hu H. induction H as [|u v w _ IH Hadj]; [assumption|].
  apply (bounded_below_adj _ _ _ _ Hb) in Hadj. tauto.
Qed.

Lemma chain4_bounded : bounded_below 1 chain4.
Proof.
  intros n m H. simpl in H.
  destruct H as [H|[H|[H|[]]]]; inversion H; lia.
Qed.

Lemma chain4_reach_4_1 : reach chain4 4 1.
Proof.
  apply (reach_step _ _ 2); [apply (reach_step _ _ 3);
    [apply reach_adj|]|]; right; simpl; auto.
Qed.

Lemma chain4_component_min : component_min chain4 4 1.
Proof.
  split; [apply chain4_reach_4_1|].
  intros v. apply (reach_bounded 1 chain4 4 v chain4_bounded). lia.
Qed.

(** * The claims *)

(** C1 (the code departs from the claim).  On the chain 1-2-3-4 the loop
    breaks after its first turn and returns (2,1), (3,1), (4,2), with any
    fuel: node 4 is mapped to 2, although 1 is reachable from 4 and is the
    least NodeID of its component, so 2 is not that minimum; the sequential
    union-find reference maps 4 to 1. *)
Theorem find_components_chain4_not_minimum :
  (forall k, find_components (1 + k) chain4 = Some [(2, 1); (3, 1); (4, 2)]) /\
  representative [(2, 1); (3, 1); (4, 2)] 4 = 2 /\
  component_min chain4 4 1 /\
  ~ component_min chain4 4 2 /\
  union_find_reference chain4 4 = 1.
Proof.
  split; [|split; [|split; [|split]]].
  - intros k. apply find_components_more. vm_compute. reflexivity.
  - vm_compute. reflexivity.
  - apply chain4_component_min.
  - intros [_ H]. specialize (H 1 chain4_reach_4_1). lia.
  - vm_compute. reflexivity.
Qed.

(** C2, counterexample.  In scenario A, with edges (1,2), (2,3), (4,5), node 1
    occurs in an input edge and yet no pair of the output starts with 1; the
    output is not the mapping 1:1, 2:1, 3:1, 4:4, 5:4. *)
Lemma scenario_A_minimum_has_no_pair :
  exists r, find_components 1 scenario_A = Some r /\
            mentioned scenario_A 1 /\
            (forall m, ~ In (1, m) r) /\
            r <> [(1, 1); (2, 1); (3, 1); (4, 4); (5, 4)].
Proof.
  exists [(2, 1); (3, 1); (5, 4)].
  split; [vm_compute; reflexivity|]. split; [|split].
  - exists 2. left. simpl. auto.
  - intros m H. simpl in H.
    destruct H as [H|[H|[H|[]]]]; inversion H.
  - discriminate.
Qed.

(** C2, amended.  The output holds each pair once and at most one pair per
    node; a node has a pair exactly when it is not the least NodeID of its
    component in the input, and then it occurs in an input edge.  For
    scenario A the output is (2,1), (3,1), (5,4). *)
Theorem find_components_one_pair_per_non_minimum
  (fuel : nat) (edges r : list Edge) :
  find_components fuel edges = Some r ->
  NoDup r /\
  functional r /\
  (forall n, (exists m, In (n, m) r) <-> ~ component_min edges n n) /\
  (forall n m, In (n, m) r -> mentioned edges n) /\
  (edges = scenario_A -> r = [(2, 1); (3, 1); (5, 4)]).
Proof.
  intros H.
  pose proof (find_components_oriented _ _ _ H) as Ho.
  pose proof (find_components_functional _ _ _ H) as Hf.
  assert (Hlow : forall n m, In (n, m) r -> reach edges n m /\ m < n).
  { intros n m Hin. split; [|now apply Ho].
    apply (find_components_sound _ _ _ H), in_reach, Hin. }
  split; [exact (find_components_NoDup _ _ _ H)|].
  split; [exact Hf|]. split; [|split].
  - intros n. split.
    + intros [m Hin] [_ Hmin]. destruct (Hlow _ _ Hin) as [Hr Hlt].
      specialize (Hmin _ Hr). lia.
    + intros Hnot. destruct (In_fst_dec r n) as [Hex|Hroot]; [assumption|].
      exfalso. apply Hnot. split; [apply reach_refl|].
      intros v Hv. apply (descends_le r v n Ho).
      apply (root_reach_descends r n Hf Hroot).
      now apply (find_components_complete _ _ _ H).
  - intros n m Hin. destruct (Hlow _ _ Hin) as [Hr Hlt].
    apply (reach_neq_mentioned edges n m Hr). lia.
  - intros ->.
    apply (find_components_deterministic fuel 1 scenario_A); [exact H|].
    vm_compute. reflexivity.
Qed.

Lemma find_components_one_pair_per_non_minimum_witness :
  find_components 1 scenario_A = Some [(2, 1); (3, 1); (5, 4)] /\
  NoDup [(2, 1); (3, 1); (5, 4)] /\
  functional [(2, 1); (3, 1); (5, 4)] /\
  (forall n, (exists m, In (n, m) [(2, 1); (3, 1); (5, 4)]) <->
             ~ component_min scenario_A n n) /\
  (forall n m, In (n, m) [(2, 1); (3, 1); (5, 4)] -> mentioned scenario_A n) /\
  (scenario_A = scenario_A -> [(2, 1); (3, 1); (5, 4)] = [(2, 1); (3, 1); (5, 4)]).
Proof.
  split; [vm_compute; reflexivity|].
  apply (find_components_one_pair_per_non_minimum 1 scenario_A).
  vm_compute. reflexivity.
Defined.

(** C3 (the code departs from the claim).  The loop does terminate on every
    finite list of edges: [turns_bound edges] turns of fuel, or more, give a
    result.  It does not reach the fixed point of the two phases, though:
    on the chain 1-2-3-4 it breaks at its first turn with (2,1), (3,1),
    (4,2), an edge set that the large star followed by the small star still
    changes, and from which one more turn gives (2,1), (3,1), (4,1). *)
Theorem find_components_stops_short_of_fixed_point :
  (forall edges, exists r,
      forall k, find_components (turns_bound edges + k) edges = Some r) /\
  iterations 1 chain4 = Some 1%nat /\
  find_components 1 chain4 = Some [(2, 1); (3, 1); (4, 2)] /\
  ~ same_edges (small_star (large_star [(2, 1); (3, 1); (4, 2)]))
               [(2, 1); (3, 1); (4, 2)] /\
  find_components 1 [(2, 1); (3, 1); (4, 2)] = Some [(2, 1); (3, 1); (4, 1)].
Proof.
  split; [|split; [|split; [|split]]].
  - intros edges. destruct (find_components_bound edges) as [r Hr].
    exists r. intros k. now apply find_components_more.
  - vm_compute. reflexivity.
  - vm_compute. reflexivity.
  - intros Hsame.
    assert (Hin : In (4, 1) (small_star (large_star [(2, 1); (3, 1); (4, 2)])))
      by (vm_compute; auto).
    apply Hsame in Hin. simpl in Hin.
    destruct Hin as [H|[H|[H|[]]]]; inversion H.
  - vm_compute. reflexivity.
Qed.




(** C5 (the code departs from the claim).  The edge set [r] at which the
    loop breaks on the chain 1-2-3-4 is not a fixed point of the two
    phases: the large star followed by the small star turns (4,2) into
    (4,1), and the change list between the two sets is not empty. *)
Theorem find_components_chain4_not_fixed_point :
  exists r,
    find_components 1 chain4 = Some r /\
    small_star (large_star r) = [(2, 1); (3, 1); (4, 1)] /\
    In (4, 1) (small_star (large_star r)) /\
    ~ In (4, 1) r /\
    changes (small_star (large_star r)) r <> [].
Proof.
  exists [(2, 1); (3, 1); (4, 2)].
  split; [vm_compute; reflexivity|].
  split; [vm_compute; reflexivity|].
  split; [vm_compute; auto|]. split.
  - intros H. simpl in H. destruct H as [H|[H|[H|[]]]]; inversion H.
  - vm_compute. discriminate.
Qed.

(** C6, counterexample.  On the chain 1-2-3-4 the large-star reduce of the
    group of node 3, whose neighbours are 2 and 4, emits (4,2); the least
    NodeID of the component of 4 is 1, so the emitted 2 is larger than the
    component minimum, not "no larger". *)
Lemma large_star_reduce_above_component_min :
  In (3, [2; 4]) (RDD.groupByKey (RDD.flatMap large_star_map chain4)) /\
  large_star_reduce (3, [2; 4]) = [(4, 2)] /\
  component_min chain4 4 1 /\
  ~ (forall c, component_min chain4 4 c -> 2 <= c).
Proof.
  split; [vm_compute; auto|]. split; [vm_compute; reflexivity|].
  split; [apply chain4_component_min|].
  intros H. specialize (H 1 chain4_component_min). lia.
Qed.

(** C6, amended.  Every edge (n, m) the large-star reduce emits for a
    grouped node x satisfies m <= x < n, hence m <= n, with n a neighbour of
    x: the node n is attached to never increases.  m lies in the component
    of n, so it is no smaller than the least NodeID of that component. *)
Theorem large_star_reduce_bound
  (a : list Edge) (x : NodeID) (neighbors : list NodeID) (n m : NodeID) :
  In (x, neighbors) (RDD.groupByKey (RDD.flatMap large_star_map a)) ->
  In (n, m) (large_star_reduce (x, neighbors)) ->
  m <= x /\ x < n /\ m <= n /\ adj a x n /\ reach a n m /\
  forall c, component_min a n c -> c <= m.
Proof.
  intros Hg Hr.
  apply groupByKey_group in Hg. destruct Hg as [_ Hvs].
  apply large_star_reduce_In in Hr. destruct Hr as (Hin & Hlt & ->).
  pose proof (py_min_le_acc neighbors x) as Hle.
  assert (Hadj : adj a x n) by now apply large_star_map_In, Hvs.
  assert (Hreach : reach a n (py_min x neighbors)).
  { apply (reach_trans _ _ x); [apply reach_adj, adj_sym, Hadj|].
    destruct (py_min_in neighbors x) as [->|Hm]; [apply reach_refl|].
    now apply reach_adj, large_star_map_In, Hvs. }
  repeat split; try assumption; try lia.
  intros c [_ Hc]. now apply Hc.
Qed.

Lemma large_star_reduce_bound_witness :
  In (3, [2; 4]) (RDD.groupByKey (RDD.flatMap large_star_map chain4)) /\
  In (4, 2) (large_star_reduce (3, [2; 4])) /\
  2 <= 3 /\ 3 < 4 /\ 2 <= 4 /\ adj chain4 3 4 /\ reach chain4 4 2 /\
  forall c, component_min chain4 4 c -> c <= 2.
Proof.
  split; [vm_compute; auto|]. split; [vm_compute; auto|].
  apply (large_star_reduce_bound chain4 3 [2; 4] 4 2); vm_compute; auto.
Defined.

(** C7.  No pair (n, m) of the output of [find_components] has n = m,
    whatever the input; the output is the collected edge set as it is, and
    nothing is filtered out of it afterwards. *)
Theorem find_components_no_self_pair
  (fuel : nat) (edges r : list Edge) (n m : NodeID) :
  find_components fuel edges = Some r -> In (n, m) r -> n <> m.
Proof.
  intros H Hin. apply (find_components_oriented _ _ _ H) in Hin. lia.
Qed.

Lemma find_components_no_self_pair_witness :
  find_components 1 chain4 = Some [(2, 1); (3, 1); (4, 2)] /\
  In (4, 2) [(2, 1); (3, 1); (4, 2)] /\ 4 <> 2.
Proof.
  split; [vm_compute; reflexivity|]. split; [simpl; auto|].
  apply (find_components_no_self_pair 1 chain4 [(2, 1); (3, 1); (4, 2)] 4 2);
    [vm_compute; reflexivity | simpl; auto].
Defined.

(** C8.  Self-loops in the input do not affect the result: if [ES] holds
    the edges of [E] and the self-pairs of [S], in any order, then the
    first large star already yields the same edges on [ES] as on [E], none
    of them a self-pair, the two runs break at the same turn, and they
    return the same edges. *)
Theorem find_components_self_loops (E S ES : list Edge) :
  (forall u v, In (u, v) S -> u = v) ->
  Permutation ES (E ++ S) ->
  same_edges (large_star ES) (large_star E) /\
  (forall u, ~ In (u, u) (large_star ES)) /\
  (forall fuel, same_outcome (find_components fuel ES)
                             (find_components fuel E)) /\
  exists r r',
    find_components (turns_bound E) ES = Some r /\
    find_components (turns_bound E) E = Some r' /\
    Permutation r r'.
Proof.
  intros HS HP.
  assert (Hg : same_graph ES E).
  { assert (Hin : forall u v, u <> v -> (In (u, v) ES <-> In (u, v) E)).
    { intros u v Hne. split; intros H.
      - apply (Permutation_in _ HP), in_app_or in H.
        destruct H as [H|H]; [assumption|]. apply HS in H. contradiction.
      - apply (Permutation_in _ (Permutation_sym HP)), in_or_app. now left. }
    intros u v Hne. unfold adj.
    rewrite (Hin u v Hne), (Hin v u (not_eq_sym Hne)). tauto. }
  pose proof (find_components_ext (turns_bound E) ES E Hg) as Hout.
  destruct (find_components_bound E) as [r' Hr'].
  split; [now apply large_star_ext|]. split; [|split].
  - intros u H. apply large_star_oriented in H. lia.
  - intros fuel. now apply find_components_ext.
  - rewrite Hr' in Hout.
    destruct (find_components (turns_bound E) ES) as [r|]; [|contradiction].
    now exists r, r'.
Qed.

Lemma find_components_self_loops_witness :
  (forall u v, In (u, v) [(2, 2); (7, 7)] -> u = v) /\
  Permutation [(2, 2); (1, 2); (2, 3); (7, 7)]
              ([(1, 2); (2, 3)] ++ [(2, 2); (7, 7)]) /\
  same_edges (large_star [(2, 2); (1, 2); (2, 3); (7, 7)])
             (large_star [(1, 2); (2, 3)]) /\
  (forall u, ~ In (u, u) (large_star [(2, 2); (1, 2); (2, 3); (7, 7)])) /\
  (forall fuel,
      same_outcome (find_components fuel [(2, 2); (1, 2); (2, 3); (7, 7)])
                   (find_components fuel [(1, 2); (2, 3)])) /\
  exists r r',
    find_components (turns_bound [(1, 2); (2, 3)])
                    [(2, 2); (1, 2); (2, 3); (7, 7)] = Some r /\
    find_components (turns_bound [(1, 2); (2, 3)]) [(1, 2); (2, 3)] = Some r' /\
    Permutation r r'.
Proof.
  assert (HS : forall u v : NodeID, In (u, v) [(2, 2); (7, 7)] -> u = v).
  { intros u v H. simpl in H.
    destruct H as [H|[H|[]]]; inversion H; reflexivity. }
  assert (HP : Permutation [(2, 2); (1, 2); (2, 3); (7, 7)]
                           ([(1, 2); (2, 3)] ++ [(2, 2); (7, 7)])).
  { exact (Permutation_middle [(1, 2); (2, 3)] [(7, 7)] (2, 2)). }
  split; [exact HS|]. split; [exact HP|].
  exact (find_components_self_loops
           [(1, 2); (2, 3)] [(2, 2); (7, 7)]
           [(2, 2); (1, 2); (2, 3); (7, 7)] HS HP).
Defined.

(** C9.  The result only depends on the undirected edges of the input: two
    inputs that join the same pairs of nodes, whatever the order of the
    endpoints and however often an edge is repeated, break at the same turn
    and return the same edges.  An input with (1,2), (2,1) and (1,2) again
    gives what (1,2) alone gives. *)
Theorem find_components_undirected (E E' : list Edge) :
  (forall u v, adj E u v <-> adj E' u v) ->
  (forall fuel, same_outcome (find_components fuel E)
                             (find_components fuel E')) /\
  exists r r',
    find_components (turns_bound E') E = Some r /\
    find_components (turns_bound E') E' = Some r' /\
    Permutation r r'.
Proof.
  intros Hadj.
  assert (Hg : same_graph E E') by (intros u v _; apply Hadj).
  split; [intros fuel; now apply find_components_ext|].
  pose proof (find_components_ext (turns_bound E') E E' Hg) as Hout.
  destruct (find_components_bound E') as [r' Hr'].
  rewrite Hr' in Hout.
  destruct (find_components (turns_bound E') E) as [r|]; [|contradiction].
  now exists r, r'.
Qed.

Lemma find_components_undirected_witness :
  (forall u v, adj [(1, 2); (2, 1); (1, 2)] u v <-> adj [(1, 2)] u v) /\
  (forall fuel, same_outcome (find_components fuel [(1, 2); (2, 1); (1, 2)])
                             (find_components fuel [(1, 2)])) /\
  exists r r',
    find_components (turns_bound [(1, 2)]) [(1, 2); (2, 1); (1, 2)] = Some r /\
    find_components (turns_bound [(1, 2)]) [(1, 2)] = Some r' /\
    Permutation r r'.
Proof.
  assert (Hadj : forall u v : NodeID,
             adj [(1, 2); (2, 1); (1, 2)] u v <-> adj [(1, 2)] u v).
  { intros u v. unfold adj. simpl. split.
    - intros [[H|[H|[H|[]]]]|[H|[H|[H|[]]]]]; inversion H; subst; auto.
    - intros [[H|[]]|[H|[]]]; inversion H; subst; auto. }
  split; [exact Hadj|].
  exact (find_components_undirected [(1, 2); (2, 1); (1, 2)] [(1, 2)] Hadj).
Defined.

(** C10.  Every pair (n, m) of the output has m < n, and the least NodeID
    of a component of the input is never the left element of a pair: the
    representatives themselves have no entry. *)
Theorem find_components_representative_smaller
  (fuel : nat) (edges r : list Edge) :
  find_components fuel edges = Some r ->
  (forall n m, In (n, m) r -> m < n) /\
  (forall c m, component_min edges c c -> ~ In (c, m) r).
Proof.
  intros H. pose proof (find_components_oriented _ _ _ H) as Ho.
  split; [exact Ho|].
  intros c m [_ Hmin] Hin.
  assert (Hr : reach edges c m)
    by (apply (find_components_sound _ _ _ H), in_reach, Hin).
  apply Hmin in Hr. apply Ho in Hin. lia.
Qed.

Lemma find_components_representative_smaller_witness :
  find_components 1 chain4 = Some [(2, 1); (3, 1); (4, 2)] /\
  (forall n m, In (n, m) [(2, 1); (3, 1); (4, 2)] -> m < n) /\
  (forall c m, component_min chain4 c c -> ~ In (c, m) [(2, 1); (3, 1); (4, 2)]).
Proof.
  split; [vm_compute; reflexivity|].
  apply (find_components_representative_smaller 1 chain4).
  vm_compute. reflexivity.
Defined.

(** * Further properties of the code *)

(** ** The convergence test *)

Lemma subtract_In (a b : list Edge) (e : Edge) :
  In e (RDD.subtract edge_eq_dec a b) <-> In e a /\ ~ In e b.
Proof.
  unfold RDD.subtract, RDD.mem. rewrite filter_In.
  destruct (in_dec edge_eq_dec e b); simpl; intuition discriminate.
Qed.

(** X1.  The list [changes] of the convergence test is the symmetric
    difference of the two RDDs: it holds the edges that are in exactly one
    of them, and it is empty exactly when they hold the same edges. *)
Theorem changes_symmetric_difference (a b : list Edge) :
  (forall e, In e (changes a b) <->
             (In e a /\ ~ In e b) \/ (In e b /\ ~ In e a)) /\
  (changes a b = [] <-> same_edges a b).
Proof.
  split.
  - intros e. unfold changes, RDD.collect, RDD.union.
    rewrite in_app_iff, !subtract_In. tauto.
  - rewrite <- changes_nil, Nat.eqb_eq. apply iff_sym, length_zero_iff_nil.
Qed.

(** ** What the small star leaves unchanged *)

Lemma functional_small_min (b : list Edge) (x n : NodeID) :
  oriented b -> functional b -> In (x, n) b -> small_min b x = n.
Proof.
  intros Ho Hf Hin. pose proof (Ho _ _ Hin) as Hlt.
  apply (least_unique (small_nbhd b x)); [apply small_min_least|].
  split; [right; now apply (oriented_down b x n Ho)|].
  intros v [->|Hv]; [lia|].
  apply (oriented_down b x v Ho) in Hv. rewrite (Hf _ _ _ Hv Hin). lia.
Qed.

Lemma functional_small_star (b : list Edge) :
  oriented b -> functional b -> same_edges (small_star b) b.
Proof.
  intros Ho Hf.
  eapply same_edges_trans; [now apply small_star_image|].
  assert (Hfix : forall e, In e b -> small_image b e = e).
  { intros [x n] Hin. unfold small_image. cbn [fst snd].
    rewrite (functional_small_min b x n Ho Hf Hin), Z.eqb_refl. reflexivity. }
  intros e. rewrite in_map_iff. split.
  - intros [e' [<- He']]. now rewrite Hfix.
  - intros He. exists e. split; [now apply Hfix | assumption].
Qed.

(** X2.  The small star leaves a set of edges unchanged exactly when every
    edge of the set points from a larger NodeID to a smaller one and no node
    has two outgoing edges. *)
Theorem small_star_fixed_iff (b : list Edge) :
  same_edges (small_star b) b <-> oriented b /\ functional b.
Proof.
  split.
  - intros H. split; [|now apply small_star_fixed_functional].
    intros n m Hin. apply (small_star_oriented b), H, Hin.
  - intros [Ho Hf]. now apply functional_small_star.
Qed.

(** X3.  A turn of the loop breaks exactly when its large star gives no node
    two outgoing edges, whatever those edges point to. *)
Theorem iteration_breaks_iff (a : list Edge) :
  snd (iteration a) = true <-> functional (large_star a).
Proof.
  unfold iteration. cbn [snd]. rewrite changes_nil. split.
  - apply small_star_fixed_functional.
  - apply functional_small_star, large_star_oriented.
Qed.

(** ** Components are kept *)

(** X4.  The large star keeps the components: two nodes are connected by
    the emitted edges exactly when they were connected by the input edges. *)
Theorem large_star_components (a : list Edge) (u v : NodeID) :
  reach (large_star a) u v <-> reach a u v.
Proof. split; [apply large_star_reach | apply large_star_complete]. Qed.

(** X5.  The small star keeps the components as well. *)
Theorem small_star_components (b : list Edge) (u v : NodeID) :
  reach (small_star b) u v <-> reach b u v.
Proof. split; [apply small_star_reach | apply small_star_complete]. Qed.

(** X6.  The result of [find_components] has the components of the input:
    two nodes are connected by the returned pairs exactly when they are
    connected in the input. *)
Theorem find_components_components
  (fuel : nat) (edges r : list Edge) (u v : NodeID) :
  find_components fuel edges = Some r ->
  (reach r u v <-> reach edges u v).
Proof.
  intros H. split;
    [apply (find_components_sound _ _ _ H)
    | apply (find_components_complete _ _ _ H)].
Qed.

Lemma find_components_components_witness :
  find_components 1 chain4 = Some [(2, 1); (3, 1); (4, 2)] /\
  (reach [(2, 1); (3, 1); (4, 2)] 4 1 <-> reach chain4 4 1).
Proof.
  split; [vm_compute; reflexivity|].
  apply (find_components_components 1 chain4 [(2, 1); (3, 1); (4, 2)] 4 1).
  vm_compute. reflexivity.
Defined.

Lemma reach_neq_adj (g : list Edge) (u v : NodeID) :
  reach g u v -> u <> v -> exists w, w <> u /\ adj g u w.
Proof.
  intros H. induction H as [|u v w Huv IH Hadj]; intros Hne; [contradiction|].
  destruct (Z.eq_dec u v) as [->|Hne']; [|now apply IH].
  exists w. split; [congruence | assumption].
Qed.

(** X7.  The nodes that occur in the result, on either side of a pair, are
    exactly the nodes that have an edge to another node in the input. *)
Theorem find_components_nodes (fuel : nat) (edges r : list Edge) (n : NodeID) :
  find_components fuel edges = Some r ->
  (mentioned r n <-> exists v, v <> n /\ adj edges n v).
Proof.
  intros H. pose proof (find_components_oriented _ _ _ H) as Ho. split.
  - intros [v Hadj].
    assert (Hne : n <> v) by (destruct Hadj as [Hin|Hin]; apply Ho in Hin; lia).
    apply (reach_neq_adj edges n v); [|assumption].
    now apply (find_components_sound _ _ _ H), reach_adj.
  - intros [v [Hne Hadj]].
    destruct (reach_neq_adj r n v) as [w [_ Hw]]; [|congruence|now exists w].
    now apply (find_components_complete _ _ _ H), reach_adj.
Qed.

Lemma find_components_nodes_witness :
  find_components 1 chain4 = Some [(2, 1); (3, 1); (4, 2)] /\
  (mentioned [(2, 1); (3, 1); (4, 2)] 1 <->
   exists v, v <> 1 /\ adj chain4 1 v).
Proof.
  split; [vm_compute; reflexivity|].
  apply (find_components_nodes 1 chain4 [(2, 1); (3, 1); (4, 2)] 1).
  vm_compute. reflexivity.
Defined.

(** ** The result is a forest rooted at the component minima *)

Lemma descends_reach (g : list Edge) (u w : NodeID) :
  descends g u w -> reach g u w.
Proof.
  intros H. induction H as [|u v w Hin _ IH]; [apply reach_refl|].
  eapply reach_trans; [apply in_reach, Hin | exact IH].
Qed.

Lemma descends_to_root (g : list Edge) :
  oriented g ->
  forall n, exists c, descends g n c /\ forall m, ~ In (c, m) g.
Proof.
  intros Ho.
  assert (Hk : forall (k : nat) n, n - lower_bound g <= Z.of_nat k ->
                 exists c, descends g n c /\ forall m, ~ In (c, m) g).
  { induction k as [|k IH]; intros n Hn;
      (destruct (In_fst_dec g n) as [[m Hin]|Hroot];
       [|exists n; split; [apply descends_refl | exact Hroot]]);
      pose proof (Ho _ _ Hin) as Hlt;
      destruct (lower_bound_bounded g _ _ Hin) as [_ HL].
    - lia.
    - destruct (IH m) as [c [Hd Hc]]; [lia|].
      exists c. split; [|exact Hc]. eapply descends_step; eassumption. }
  intros n. apply (Hk (Z.to_nat (n - lower_bound g))). lia.
Qed.

(** X8.  The returned pairs form a forest whose roots are the component
    minima: from every node, following pairs from left to right ends at a
    node without a pair, and the node so reached is the least NodeID of the
    component of the node one started from in the input. *)
Theorem find_components_roots (fuel : nat) (edges r : list Edge) :
  find_components fuel edges = Some r ->
  (forall n, exists c, descends r n c /\ forall m, ~ In (c, m) r) /\
  (forall n c, descends r n c -> (forall m, ~ In (c, m) r) ->
               component_min edges n c).
Proof.
  intros H.
  pose proof (find_components_oriented _ _ _ H) as Ho.
  pose proof (find_components_functional _ _ _ H) as Hf.
  split; [now apply descends_to_root|].
  intros n c Hd Hroot. apply descends_reach in Hd. split.
  - now apply (find_components_sound _ _ _ H).
  - intros v Hv. apply (descends_le r v c Ho).
    apply (root_reach_descends r c Hf Hroot).
    apply (reach_trans _ _ n); [now apply reach_sym|].
    now apply (find_components_complete _ _ _ H).
Qed.

Lemma find_components_roots_witness :
  find_components 1 chain4 = Some [(2, 1); (3, 1); (4, 2)] /\
  (forall n, exists c, descends [(2, 1); (3, 1); (4, 2)] n c /\
                       forall m, ~ In (c, m) [(2, 1); (3, 1); (4, 2)]) /\
  (forall n c, descends [(2, 1); (3, 1); (4, 2)] n c ->
               (forall m, ~ In (c, m) [(2, 1); (3, 1); (4, 2)]) ->
               component_min chain4 n c).
Proof.
  split; [vm_compute; reflexivity|].
  apply (find_components_roots 1 chain4). vm_compute. reflexivity.
Defined.

Lemma descends_root_component_min
  (fuel : nat) (edges r : list Edge) (n c : NodeID) :
  find_components fuel edges = Some r ->
  descends r n c -> (forall m, ~ In (c, m) r) -> component_min edges n c.
Proof.
  intros H Hd Hroot.
  pose proof (find_components_oriented _ _ _ H) as Ho.
  pose proof (find_components_functional _ _ _ H) as Hf.
  apply descends_reach in Hd. split.
  - now apply (find_components_sound _ _ _ H).
  - intros v Hv. apply (descends_le r v c Ho).
    apply (root_reach_descends r c Hf Hroot).
    apply (reach_trans _ _ n); [now apply reach_sym|].
    now apply (find_components_complete _ _ _ H).
Qed.

(** ** Stars: the sets on which the large star does nothing *)

Lemma root_large_least (g : list Edge) (x : NodeID) :
  oriented g -> (forall m, ~ In (x, m) g) -> least (large_nbhd g x) x.
Proof.
  intros Ho Hroot. split; [now left|].
  intros v [->|[Hin|Hin]]; [lia | exfalso; exact (Hroot _ Hin)|].
  apply Ho in Hin. lia.
Qed.

Lemma star_large_star (g : list Edge) :
  oriented g ->
  (forall n m, In (n, m) g -> forall m', ~ In (m, m') g) ->
  same_edges (large_star g) g.
Proof.
  intros Ho Hstar [n m]. rewrite large_star_In. split.
  - intros [x (Hadj & Hlt & Hl)].
    assert (Hin : In (n, x) g) by now apply (oriented_up g x n Ho).
    rewrite (least_unique _ _ _ Hl (root_large_least g x Ho (Hstar _ _ Hin))).
    exact Hin.
  - intros Hin. exists m. split; [now right|]. split; [now apply Ho|].
    apply (root_large_least g m Ho (Hstar _ _ Hin)).
Qed.

Lemma large_star_fixed_star (g : list Edge) :
  functional g -> same_edges (large_star g) g ->
  forall n m, In (n, m) g -> forall m', ~ In (m, m') g.
Proof.
  intros Hf Hfix n m Hin m' Hin'.
  assert (Ho : oriented g).
  { intros p q Hpq. apply (large_star_oriented g), Hfix, Hpq. }
  pose proof (Ho _ _ Hin) as Hlt. pose proof (Ho _ _ Hin') as Hlt'.
  assert (Hnew : In (n, large_min g m) g).
  { apply Hfix, large_star_edge; [now right | assumption]. }
  destruct (large_min_least g m) as [_ Hl].
  specialize (Hl m' (or_intror (or_introl Hin'))).
  pose proof (Hf _ _ _ Hin Hnew). lia.
Qed.

(** X9.  The result is the true mapping exactly when the large star leaves
    it unchanged: every returned pair (n, m) has m the least NodeID of the
    component of n in the input if and only if the large star of the result
    holds the same edges as the result. *)
Theorem find_components_exact_iff_stable (fuel : nat) (edges r : list Edge) :
  find_components fuel edges = Some r ->
  (same_edges (large_star r) r <->
   forall n m, In (n, m) r -> component_min edges n m).
Proof.
  intros H.
  pose proof (find_components_oriented _ _ _ H) as Ho.
  pose proof (find_components_functional _ _ _ H) as Hf.
  split.
  - intros Hfix n m Hin.
    apply (descends_root_component_min fuel edges r n m H).
    + eapply descends_step; [exact Hin | apply descends_refl].
    + exact (large_star_fixed_star r Hf Hfix n m Hin).
  - intros Hmin. apply (star_large_star r Ho).
    intros n m Hin m' Hin'.
    destruct (Hmin _ _ Hin) as [_ Hleast].
    assert (Hr : reach edges n m').
    { apply (find_components_sound _ _ _ H).
      eapply reach_trans; apply in_reach; eassumption. }
    apply Hleast in Hr. apply Ho in Hin'. lia.
Qed.

Lemma find_components_exact_iff_stable_witness :
  find_components 1 scenario_A = Some [(2, 1); (3, 1); (5, 4)] /\
  (same_edges (large_star [(2, 1); (3, 1); (5, 4)]) [(2, 1); (3, 1); (5, 4)] <->
   forall n m, In (n, m) [(2, 1); (3, 1); (5, 4)] ->
               component_min scenario_A n m).
Proof.
  split; [vm_compute; reflexivity|].
  apply (find_components_exact_iff_stable 1 scenario_A).
  vm_compute. reflexivity.
Defined.

(** X10.  An input that is already a mapping onto representatives, that is,
    whose edges point downward, one per node, to nodes that have no edge of
    their own, is returned as it is by the first turn. *)
Theorem find_components_star_input (g : list Edge) :
  oriented g -> functional g ->
  (forall n m, In (n, m) g -> forall m', ~ In (m, m') g) ->
  exists r, find_components 1 g = Some r /\ same_edges r g /\ NoDup r.
Proof.
  intros Ho Hf Hstar.
  pose proof (star_large_star g Ho Hstar) as HL.
  assert (Hfl : functional (large_star g)).
  { intros n m m' Hm Hm'. apply HL in Hm, Hm'. exact (Hf _ _ _ Hm Hm'). }
  exists (small_star (large_star g)). split; [|split].
  - unfold find_components. rewrite find_components_loop_S.
    assert (Hstop : (length (changes (small_star (large_star g))
                                     (large_star g)) =? 0)%nat = true).
    { apply changes_nil, functional_small_star;
        [apply large_star_oriented | exact Hfl]. }
    now rewrite Hstop.
  - eapply same_edges_trans; [|exact HL].
    apply functional_small_star; [apply large_star_oriented | exact Hfl].
  - apply small_star_NoDup.
Qed.

Lemma find_components_star_input_witness :
  oriented [(2, 1); (3, 1); (5, 4)] /\
  functional [(2, 1); (3, 1); (5, 4)] /\
  (forall n m, In (n, m) [(2, 1); (3, 1); (5, 4)] ->
     forall m', ~ In (m, m') [(2, 1); (3, 1); (5, 4)]) /\
  exists r, find_components 1 [(2, 1); (3, 1); (5, 4)] = Some r /\
            same_edges r [(2, 1); (3, 1); (5, 4)] /\ NoDup r.
Proof.
  assert (Ho : oriented [(2, 1); (3, 1); (5, 4)]).
  { intros n m H. simpl in H.
    destruct H as [H|[H|[H|[]]]]; inversion H; lia. }
  assert (Hf : functional [(2, 1); (3, 1); (5, 4)]).
  { intros n m m' H H'. simpl in H, H'.
    destruct H as [H|[H|[H|[]]]]; inversion H; subst;
      destruct H' as [H'|[H'|[H'|[]]]]; inversion H'; subst; reflexivity. }
  assert (Hs : forall n m, In (n, m) [(2, 1); (3, 1); (5, 4)] ->
             forall m', ~ In (m, m') [(2, 1); (3, 1); (5, 4)]).
  { intros n m H m' H'. simpl in H, H'.
    destruct H as [H|[H|[H|[]]]]; inversion H; subst;
      destruct H' as [H'|[H'|[H'|[]]]]; inversion H'. }
  split; [exact Ho|]. split; [exact Hf|]. split; [exact Hs|].
  exact (find_components_star_input [(2, 1); (3, 1); (5, 4)] Ho Hf Hs).
Defined.

(** ** Sizes *)

Lemma large_star_from_edge (a : list Edge) :
  incl (large_star a)
       (List.map (fun e => (Z.max (fst e) (snd e),
                            large_min a (Z.min (fst e) (snd e)))) a).
Proof.
  intros [n m] H. apply large_star_In in H.
  destruct H as [x (Hadj & Hlt & Hl)].
  assert (Hm : m = large_min a x)
    by (apply (least_unique (large_nbhd a x));
        [exact Hl | apply large_min_least]).
  apply in_map_iff. destruct Hadj as [Hin|Hin].
  - exists (x, n). split; [|assumption]. cbn [fst snd].
    rewrite Z.max_r, Z.min_l by lia. now rewrite Hm.
  - exists (n, x). split; [|assumption]. cbn [fst snd].
    rewrite Z.max_l, Z.min_r by lia. now rewrite Hm.
Qed.

Lemma small_star_from_edge (b : list Edge) :
  incl (small_star b)
       (List.map (fun e => small_image b (small_star_map e)) b).
Proof.
  intros [n m] H. apply small_star_In_nbhd in H.
  destruct H as [x (Hn & Hne & Hl)].
  assert (Hm : m = small_min b x)
    by (apply (least_unique (small_nbhd b x));
        [exact Hl | apply small_min_least]).
  assert (Hkey : exists v, In (x, v) (RDD.map small_star_map b) /\
                           small_image b (x, v) = (n, m)).
  { destruct Hn as [->|Hn].
    - destruct Hl as [[->|Hx] _]; [contradiction|].
      exists m. split; [now apply small_star_map_In|].
      unfold small_image. cbn [fst snd]. now rewrite <- Hm, Z.eqb_refl.
    - exists n. split; [now apply small_star_map_In|].
      unfold small_image. cbn [fst snd]. rewrite <- Hm.
      destruct (Z.eqb_spec n m); [contradiction | reflexivity]. }
  destruct Hkey as [v [Hin Himg]].
  unfold RDD.map in Hin. apply in_map_iff in Hin.
  destruct Hin as [e [He Hin]].
  apply in_map_iff. exists e. split; [now rewrite He | assumption].
Qed.

Lemma large_star_length (a : list Edge) :
  (length (large_star a) <= length a)%nat.
Proof.
  eapply Nat.le_trans;
    [apply NoDup_incl_length;
       [apply large_star_NoDup | apply large_star_from_edge]|].
  rewrite length_map. apply Nat.le_refl.
Qed.

Lemma small_star_length (b : list Edge) :
  (length (small_star b) <= length b)%nat.
Proof.
  eapply Nat.le_trans;
    [apply NoDup_incl_length;
       [apply small_star_NoDup | apply small_star_from_edge]|].
  rewrite length_map. apply Nat.le_refl.
Qed.

(** X11.  Neither phase emits more edges than it is given, duplicates and
    self-pairs of the input included in the count. *)
Theorem phases_edge_count (a : list Edge) :
  (length (large_star a) <= length a)%nat /\
  (length (small_star a) <= length a)%nat.
Proof. split; [apply large_star_length | apply small_star_length]. Qed.

(** X12.  The result never has more pairs than the input has edges. *)
Theorem find_components_edge_count (fuel : nat) (edges r : list Edge) :
  find_components fuel edges = Some r ->
  (length r <= length edges)%nat.
Proof.
  intros H. apply find_components_Some in H.
  assert (Hturn : forall a, (length (small_star (large_star a)) <= length a)%nat).
  { intros a. pose proof (small_star_length (large_star a)).
    pose proof (large_star_length a). lia. }
  destruct (find_components_loop_inv
              (fun a => (length a <= length edges)%nat)) with
    (fuel := fuel) (a := edges) (r := r) as [a0 (Ha0 & -> & _)];
    [ | apply Nat.le_refl | assumption | ].
  - intros a Ha. specialize (Hturn a). lia.
  - specialize (Hturn a0). lia.
Qed.

Lemma find_components_edge_count_witness :
  find_components 2 fork3 = Some [(3, 1); (2, 1)] /\
  Nat.le (length [(3, 1); (2, 1)]) (length fork3).
Proof.
  split; [vm_compute; reflexivity|].
  apply (find_components_edge_count 2 fork3). vm_compute. reflexivity.
Defined.

(** ** Inputs without an edge between two nodes *)

Lemma no_member_nil (l : list Edge) : (forall e, ~ In e l) -> l = [].
Proof.
  destruct l as [|e l]; [reflexivity|].
  intros H. exfalso. apply (H e). now left.
Qed.

(** X13.  On an input that holds nothing but self-pairs, the empty input
    among them, the loop takes one turn and returns the empty list. *)
Theorem find_components_only_self_loops (S : list Edge) :
  (forall u v, In (u, v) S -> u = v) ->
  find_components 1 S = Some [] /\ iterations 1 S = Some 1%nat.
Proof.
  intros HS.
  assert (Hnil : large_star S = []).
  { apply no_member_nil. intros [n m] H. apply large_star_In in H.
    destruct H as [x ([Hin|Hin] & Hlt & _)]; apply HS in Hin; lia. }
  split.
  - unfold find_components. rewrite find_components_loop_S, Hnil. reflexivity.
  - simpl. unfold iteration. rewrite Hnil. reflexivity.
Qed.

Lemma find_components_only_self_loops_witness :
  (forall u v, In (u, v) [(5, 5); (1, 1)] -> u = v) /\
  find_components 1 [(5, 5); (1, 1)] = Some [] /\
  iterations 1 [(5, 5); (1, 1)] = Some 1%nat.
Proof.
  assert (HS : forall u v : NodeID, In (u, v) [(5, 5); (1, 1)] -> u = v).
  { intros u v H. simpl in H.
    destruct H as [H|[H|[]]]; inversion H; reflexivity. }
  split; [exact HS|].
  exact (find_components_only_self_loops [(5, 5); (1, 1)] HS).
Defined.

(** ** The map and the reduce of the small star *)

(** X14.  [small_star_map] puts the larger endpoint first: it sends both
    orientations of an edge to the same pair, and applying it twice is
    applying it once. *)
Theorem small_star_map_max_min (x y : NodeID) :
  small_star_map (x, y) = (Z.max x y, Z.min x y) /\
  small_star_map (y, x) = small_star_map (x, y) /\
  small_star_map (small_star_map (x, y)) = small_star_map (x, y).
Proof.
  unfold small_star_map.
  destruct (Z.leb_spec y x) as [Hle|Hlt].
  - rewrite Z.max_l, Z.min_r by lia. split; [reflexivity|].
    split.
    + destruct (Z.leb_spec x y); [|reflexivity].
      assert (x = y) by lia. now subst.
    + destruct (Z.leb_spec y x); [reflexivity | lia].
  - rewrite Z.max_r, Z.min_l by lia. split; [reflexivity|].
    split.
    + destruct (Z.leb_spec x y); [reflexivity | lia].
    + destruct (Z.leb_spec x y); [reflexivity | lia].
Qed.

Lemma filter_out_member_length (m : Z) (l : list Z) :
  In m l ->
  Nat.lt (length (filter (fun n => negb (n =? m)) l)) (length l).
Proof.
  induction l as [|y l IH]; intros Hin; [contradiction|].
  simpl. destruct (Z.eqb_spec y m) as [->|Hne]; simpl.
  - pose proof (filter_length_le (fun n => negb (n =? m)) l). lia.
  - destruct Hin as [->|Hin]; [contradiction|]. apply IH in Hin. lia.
Qed.

(** X15.  [small_star_reduce] emits a star centred at the minimum of its
    group: every emitted pair points to that minimum from a strictly larger
    node of the group, every node of the group other than the minimum is
    the left element of a pair, and there are at most as many pairs as the
    group has neighbours. *)
Theorem small_star_reduce_star (x : NodeID) (neighbors : list NodeID) :
  (forall n m, In (n, m) (small_star_reduce (x, neighbors)) ->
     m = py_min x neighbors /\ m < n /\ (n = x \/ In n neighbors)) /\
  (forall n, n = x \/ In n neighbors -> n <> py_min x neighbors ->
     In (n, py_min x neighbors) (small_star_reduce (x, neighbors))) /\
  (length (small_star_reduce (x, neighbors)) <= length neighbors)%nat.
Proof.
  split; [|split].
  - intros n m H. apply small_star_reduce_In in H.
    destruct H as (Hn & Hne & ->). split; [reflexivity|]. split; [|exact Hn].
    destruct (py_min_least neighbors x) as [_ Hl]. specialize (Hl n Hn). lia.
  - intros n Hn Hne. apply small_star_reduce_In. auto.
  - unfold small_star_reduce. rewrite length_map.
    assert (Hin : In (py_min x neighbors) (x :: neighbors)).
    { destruct (py_min_in neighbors x) as [H|H]; [left; now rewrite H|].
      now right. }
    apply filter_out_member_length in Hin.
    change (length (x :: neighbors)) with (S (length neighbors)) in Hin.
    unfold Nat.lt in Hin. lia.
Qed.

(** ** The reduce of the large star *)

(** X16.  [large_star_reduce] emits pairs only for the neighbours above the
    key, all of them pointing to the minimum of the group, which is at most
    the key; it emits nothing when no neighbour is above the key, and never
    more pairs than there are neighbours. *)
Theorem large_star_reduce_pairs (x : NodeID) (neighbors : list NodeID) :
  (forall n m, In (n, m) (large_star_reduce (x, neighbors)) ->
     In n neighbors /\ x < n /\ m = py_min x neighbors /\ m <= x) /\
  ((forall n, In n neighbors -> n <= x) ->
     large_star_reduce (x, neighbors) = []) /\
  (length (large_star_reduce (x, neighbors)) <= length neighbors)%nat.
Proof.
  split; [|split].
  - intros n m H. apply large_star_reduce_In in H.
    destruct H as (Hin & Hlt & ->). repeat split; try assumption.
    apply py_min_le_acc.
  - intros Hle. apply no_member_nil. intros [n m] H.
    apply large_star_reduce_In in H. destruct H as (Hin & Hlt & _).
    apply Hle in Hin. lia.
  - unfold large_star_reduce. rewrite length_map.
    change (filter (fun n => n >? x) (x :: neighbors))
      with (if x >? x then x :: filter (fun n => n >? x) neighbors
            else filter (fun n => n >? x) neighbors).
    assert (Hx : (x >? x) = false) by (rewrite Z.gtb_ltb; apply Z.ltb_irrefl).
    rewrite Hx. apply filter_length_le.
Qed.

(** ** A bound on the number of turns from the input alone *)

Lemma potential_le_length (L : Z) (W : nat) (g : list Edge) :
  (forall e, In e g -> (weight L e <= W)%nat) ->
  (potential L g <= length g * W)%nat.
Proof.
  induction g as [|e g IH]; intros Hw; [apply Nat.le_refl|].
  rewrite potential_cons.
  assert (He := Hw e (or_introl eq_refl)).
  assert (IH' := IH (fun e' H => Hw e' (or_intror H))).
  change (length (e :: g)) with (S (length g)). lia.
Qed.

(** X17.  When every NodeID of the input lies between [L] and [U], the loop
    breaks within 1 + |edges| * (2 * (U - L) + 1) turns. *)
Theorem find_components_turns (edges : list Edge) (L U : Z) :
  (forall u v, In (u, v) edges -> L <= u <= U /\ L <= v <= U) ->
  exists r,
    find_components (S (length edges * (2 * Z.to_nat (U - L) + 1))) edges
    = Some r.
Proof.
  intros Hrange.
  assert (Hb : bounded_below L edges)
    by (intros n m H; apply Hrange in H; lia).
  assert (Hnode : forall p q, adj edges p q -> L <= q <= U)
    by (intros p q [H|H]; apply Hrange in H; lia).
  assert (Hw : forall e, In e (large_star edges) ->
                 (weight L e <= 2 * Z.to_nat (U - L) + 1)%nat).
  { intros [n m] H. apply large_star_In in H.
    destruct H as [x (Hadj & _ & [Hm _])].
    pose proof (Hnode _ _ Hadj) as Hn.
    assert (Hm' : L <= m <= U).
    { destruct Hm as [->|Hm]; [|now apply (Hnode x)].
      apply (Hnode n), adj_sym, Hadj. }
    unfold weight. cbn [fst snd]. lia. }
  apply potential_le_length in Hw.
  pose proof (large_star_length edges) as Hlen.
  destruct (find_components_loop_terminates L
              (length edges * (2 * Z.to_nat (U - L) + 1)) edges Hb) as [r Hr].
  - eapply Nat.le_trans; [exact Hw|]. apply Nat.mul_le_mono_r, Hlen.
  - exists r. now apply find_components_Some.
Qed.

Lemma find_components_turns_witness :
  (forall u v, In (u, v) chain4 -> 1 <= u <= 4 /\ 1 <= v <= 4) /\
  exists r,
    find_components (S (length chain4 * (2 * Z.to_nat (4 - 1) + 1))) chain4
    = Some r.
Proof.
  assert (Hrange : forall u v : NodeID,
             In (u, v) chain4 -> 1 <= u <= 4 /\ 1 <= v <= 4).
  { intros u v H. simpl in H.
    destruct H as [H|[H|[H|[]]]]; inversion H; lia. }
  split; [exact Hrange|].
  exact (find_components_turns chain4 1 4 Hrange).
Defined.

(** ** The configuration of [init_spark] *)

Module SparkProps.

Import String.
Local Open Scope string_scope.

Lemma get_set_same (conf : Spark.SparkConf) (key value : string) :
  Spark.get (Spark.set conf key value) key = Some value.
Proof.
  unfold Spark.get, Spark.set. cbn [find fst].
  now rewrite String.eqb_refl.
Qed.

Lemma find_filter_other (conf : Spark.SparkConf) (key key' : string) :
  key' <> key ->
  find (fun p => String.eqb (fst p) key')
       (filter (fun p => negb (String.eqb (fst p) key)) conf)
  = find (fun p => String.eqb (fst p) key') conf.
Proof.
  intros Hne. induction conf as [|[k v] conf IH]; [reflexivity|].
  cbn [filter find fst].
  destruct (String.eqb_spec k key) as [->|Hk]; cbn [negb find fst].
  - destruct (String.eqb_spec key key') as [Heq|_]; [congruence | exact IH].
  - destruct (String.eqb_spec k key'); [reflexivity | exact IH].
Qed.

Lemma get_set_other (conf : Spark.SparkConf) (key key' value : string) :
  key' <> key ->
  Spark.get (Spark.set conf key value) key' = Spark.get conf key'.
Proof.
  intros Hne. unfold Spark.get, Spark.set. cbn [find fst].
  destruct (String.eqb_spec key key') as [Heq|_]; [congruence|].
  now rewrite find_filter_other.
Qed.

Lemma defaulted_idem (x : option string) (d : string) :
  Spark.defaulted (Some (Spark.defaulted x d)) d = Spark.defaulted x d.
Proof.
  unfold Spark.defaulted. destruct x as [s|].
  - destruct (String.eqb_spec s EmptyString) as [->|Hs].
    + destruct (String.eqb d EmptyString); reflexivity.
    + destruct (String.eqb_spec s EmptyString); [contradiction | reflexivity].
  - destruct (String.eqb d EmptyString); reflexivity.
Qed.

Ltac get_key :=
  unfold Spark.init_spark;
  repeat (rewrite get_set_other by discriminate);
  apply get_set_same.

(** X18.  Whatever the configuration starts from, [init_spark] defines its
    seven keys: the three fixed ones, and the four that come from the
    arguments, an argument that is [None] or the empty string giving the
    default ('local[*]', '64g', '64g', '20000').  No other key is touched,
    and passing a default explicitly is the same as leaving it out. *)
Theorem init_spark_settings (conf0 : Spark.SparkConf)
  (master_url executor_memory driver_memory overhead : option string) :
  let conf :=
    Spark.init_spark conf0 master_url executor_memory driver_memory overhead in
  Spark.get conf "spark.app.name" = Some "MinHashLSH" /\
  Spark.get conf "spark.debug.maxToStringFields" = Some "100" /\
  Spark.get conf "spark.master"
    = Some (Spark.defaulted master_url "local[*]") /\
  Spark.get conf "spark.executor.memory"
    = Some (Spark.defaulted executor_memory "64g") /\
  Spark.get conf "spark.driver.memory"
    = Some (Spark.defaulted driver_memory "64g") /\
  Spark.get conf "spark.sql.execution.arrow.pyspark.enabled" = Some "true" /\
  Spark.get conf "spark.executor.memoryOverhead"
    = Some (Spark.defaulted overhead "20000") /\
  (forall key, ~ In key Spark.init_spark_keys ->
     Spark.get conf key = Spark.get conf0 key) /\
  conf = Spark.init_spark conf0
           (Some (Spark.defaulted master_url "local[*]"))
           (Some (Spark.defaulted executor_memory "64g"))
           (Some (Spark.defaulted driver_memory "64g"))
           (Some (Spark.defaulted overhead "20000")).
Proof.
  cbv zeta. repeat split; try get_key.
  - intros key Hkey. unfold Spark.init_spark.
    repeat (rewrite get_set_other;
            [|intros ->; apply Hkey; unfold Spark.init_spark_keys;
              cbn [In]; tauto]).
    reflexivity.
  - unfold Spark.init_spark. now rewrite !defaulted_idem.
Qed.

End SparkProps.
